(** * A shallow embedding of [louvain.hxx] (sequential Louvain engine)

    Model choices:
    - vertex ids [K] are [nat]; every per-vertex table ([vcom], [vtot],
      [ctot], [vaff], [vcout], ...) is a [list] indexed with stdpp's
      [!!!] (read) and [<[i:=v]>] (write);
    - edge weights and the accumulated weights [vtot], [ctot], [vcout]
      are integers ([Z]): sums of integer-valued doubles are exact, so the
      double additions of the source are modelled exactly;
    - the modularity gains and the l1-energy [el] are exact rationals
      ([Q]);
    - a graph is its span, its vertex-presence flags and, per vertex, the
      list of out-edges [(v, w)] in iteration order.  The aggregated graph
      [y] (a [DiGraphCsr]) is given by the same record: its edges of [c]
      are the slice [yoff[c] .. yoff[c]+ydeg[c]) of the CSR. *)

From Stdlib Require Import ZArith QArith Lia.
From stdpp Require Import base list.

Open Scope nat_scope.

(** ** Graphs *)

Record Graph := mkGraph {
  gspan : nat;                      (** [x.span()] *)
  ghas  : list bool;                (** [x.hasVertex(u)] *)
  gadj  : list (list (nat * Z))     (** [x.forEachEdge(u, ...)] *)
}.

Definition hasVertex (x : Graph) (u : nat) : bool := ghas x !!! u.

(** [x.forEachVertexKey]: the present vertices, in increasing order. *)
Definition vertexKeys (x : Graph) : list nat :=
  List.filter (hasVertex x) (seq 0 (gspan x)).

Definition edgesOf (x : Graph) (u : nat) : list (nat * Z) := gadj x !!! u.

(** [x.forEachEdgeKey(u, ...)] *)
Definition edgeKeys (x : Graph) (u : nat) : list nat := map fst (edgesOf x u).

Definition degree (x : Graph) (u : nat) : nat := length (edgesOf x u).

Definition order (x : Graph) : nat := length (vertexKeys x).

Definition sumZ (l : list Z) : Z := foldr Z.add 0%Z l.

(** Modelled from the spec: [edgeWeight] of [properties.hxx] (not in the
    sources), "edgeWeight(G) = Σ w(u,v)" over all out-edges of all
    vertices. *)
Definition edgeWeight (x : Graph) : Z :=
  sumZ (map (fun u => sumZ (map snd (edgesOf x u))) (vertexKeys x)).

(** [fillValueU(a, v)] *)
Definition fillValueU {A} (a : list A) (v : A) : list A := repeat v (length a).

(** ** Hashtable (scan / clear) *)

(** [louvainScanCommunityW<SELF>] *)
Definition louvainScanCommunityW (SELF : bool) (vcs : list nat) (vcout : list Z)
    (u v : nat) (w : Z) (vcom : list nat) : list nat * list Z :=
  if negb SELF && (u =? v) then (vcs, vcout) else
  let c := vcom !!! v in
  let vcs' := if Z.eqb (vcout !!! c) 0 then vcs ++ [c] else vcs in
  (vcs', <[c := (vcout !!! c + w)%Z]> vcout).

(** [louvainScanCommunitiesW<SELF>] *)
Definition louvainScanCommunitiesW (SELF : bool) (vcs : list nat) (vcout : list Z)
    (x : Graph) (u : nat) (vcom : list nat) : list nat * list Z :=
  foldl (fun '(vcs, vcout) '(v, w) => louvainScanCommunityW SELF vcs vcout u v w vcom)
        (vcs, vcout) (edgesOf x u).

(** [louvainClearScanW] *)
Definition louvainClearScanW (vcs : list nat) (vcout : list Z) : list nat * list Z :=
  ([], foldl (fun vcout c => <[c := 0%Z]> vcout) vcout vcs).

(** ** Delta-modularity scorer *)

(** Modelled from the spec: [deltaModularity] of [modularity.hxx] (not in
    the sources), the standard Louvain gain for moving [u] from [d] to [c]:
    (w_uc - w_ud)/M - R * vtot_u * (vtot_u + ctot_c - ctot_d) / (2 M^2). *)
Definition deltaModularity (vcout vdout vtot ctot dtot : Z) (M R : Q) : Q :=
  (inject_Z (vcout - vdout) / M
   - R * inject_Z vtot * inject_Z (vtot + ctot - dtot) / (2 * M * M))%Q.

Definition Qltb (a b : Q) : bool := negb (Qle_bool b a).

(** [louvainChooseCommunity<SELF>]: [cmax = K()] is [0], [emax = W()] is
    [0]. *)
Definition louvainChooseCommunity (SELF : bool) (x : Graph) (u : nat)
    (vcom : list nat) (vtot ctot : list Z) (vcs : list nat) (vcout : list Z)
    (M R : Q) : nat * Q :=
  let d := vcom !!! u in
  foldl (fun '(cmax, emax) c =>
           if negb SELF && (c =? d) then (cmax, emax) else
           let e := deltaModularity (vcout !!! c) (vcout !!! d) (vtot !!! u)
                                    (ctot !!! c) (ctot !!! d) M R in
           if Qltb emax e then (c, e) else (cmax, emax))
        (0, 0%Q) vcs.

(** [louvainChangeCommunityW] *)
Definition louvainChangeCommunityW (vcom : list nat) (ctot : list Z) (x : Graph)
    (u c : nat) (vtot : list Z) : list nat * list Z :=
  let d := vcom !!! u in
  let ctot1 := <[d := (ctot !!! d - vtot !!! u)%Z]> ctot in
  let ctot2 := <[c := (ctot1 !!! c + vtot !!! u)%Z]> ctot1 in
  (<[u := c]> vcom, ctot2).

(** ** Weight tables *)

(** [louvainVertexWeightsW] *)
Definition louvainVertexWeightsW (vtot : list Z) (x : Graph) : list Z :=
  foldl (fun vtot u =>
           foldl (fun vtot '(v, w) => <[u := (vtot !!! u + w)%Z]> vtot)
                 vtot (edgesOf x u))
        vtot (vertexKeys x).

(** [louvainCommunityWeightsW] *)
Definition louvainCommunityWeightsW (ctot : list Z) (x : Graph) (vcom : list nat)
    (vtot : list Z) : list Z :=
  foldl (fun ctot u => let c := vcom !!! u in <[c := (ctot !!! c + vtot !!! u)%Z]> ctot)
        ctot (vertexKeys x).

(** [louvainInitializeW] *)
Definition louvainInitializeW (vcom : list nat) (ctot : list Z) (x : Graph)
    (vtot : list Z) : list nat * list Z :=
  foldl (fun '(vcom, ctot) u => (<[u := u]> vcom, <[u := vtot !!! u]> ctot))
        (vcom, ctot) (vertexKeys x).

(** [louvainInitializeFromW] *)
Definition louvainInitializeFromW (vcom : list nat) (ctot : list Z) (x : Graph)
    (vtot : list Z) (q : list nat) : list nat * list Z :=
  foldl (fun '(vcom, ctot) u =>
           let c := q !!! u in
           (<[u := c]> vcom, <[c := (ctot !!! c + vtot !!! u)%Z]> ctot))
        (vcom, ctot) (vertexKeys x).

(** ** Local-moving phase *)

(** The mutable state of [louvainMoveW]: [vcom], [ctot], [vaff], the
    scratch [vcs], [vcout] and the l1-energy [el]. *)
Record MoveState := mkMoveState {
  ms_vcom  : list nat;
  ms_ctot  : list Z;
  ms_vaff  : list bool;
  ms_vcs   : list nat;
  ms_vcout : list Z;
  ms_el    : Q
}.

(** The body of [x.forEachVertexKey([&](auto u) {...})] in [louvainMoveW]. *)
Definition louvainMoveVertex (x : Graph) (vtot : list Z) (M R : Q)
    (st : MoveState) (u : nat) : MoveState :=
  let '(mkMoveState vcom ctot vaff vcs vcout el) := st in
  if negb (vaff !!! u) then st else
  let '(vcs1, vcout1) := louvainClearScanW vcs vcout in
  let '(vcs2, vcout2) := louvainScanCommunitiesW false vcs1 vcout1 x u vcom in
  let '(c, e) := louvainChooseCommunity false x u vcom vtot ctot vcs2 vcout2 M R in
  let '(vcom', ctot', vaff') :=
    if c =? 0 then (vcom, ctot, vaff)      (* if (c) { ... } *)
    else let '(vcom', ctot') := louvainChangeCommunityW vcom ctot x u c vtot in
         (vcom', ctot', foldl (fun vaff v => <[v := true]> vaff) vaff (edgeKeys x u)) in
  mkMoveState vcom' ctot' (<[u := false]> vaff') vcs2 vcout2 (el + e)%Q.

(** One iteration: [el = W()] and a sweep over the vertices. *)
Definition louvainMoveSweep (x : Graph) (vtot : list Z) (M R : Q)
    (st : MoveState) : MoveState :=
  foldl (louvainMoveVertex x vtot M R)
        (mkMoveState (ms_vcom st) (ms_ctot st) (ms_vaff st) (ms_vcs st)
                     (ms_vcout st) 0%Q)
        (vertexKeys x).

(** [for (; l<L;) { ...; if (fc(el, l++)) break; }]: [k] is [L - l]. *)
Fixpoint louvainMoveLoop (k : nat) (x : Graph) (vtot : list Z) (M R : Q)
    (fc : Q -> nat -> bool) (l : nat) (st : MoveState) : nat * MoveState :=
  match k with
  | O => (l, st)
  | S k' =>
      let st' := louvainMoveSweep x vtot M R st in
      if fc (ms_el st') l then (S l, st')
      else louvainMoveLoop k' x vtot M R fc (S l) st'
  end.

(** [louvainMoveW]: returns [l>1 || el ? l : 0] and the final state. *)
Definition louvainMoveW (vcom : list nat) (ctot : list Z) (vaff : list bool)
    (vcs : list nat) (vcout : list Z) (x : Graph) (vtot : list Z) (M R : Q)
    (L : nat) (fc : Q -> nat -> bool) : nat * MoveState :=
  let '(l, st) := louvainMoveLoop L x vtot M R fc 0
                    (mkMoveState vcom ctot vaff vcs vcout 0%Q) in
  (if (1 <? l) || negb (Qeq_bool (ms_el st) 0) then l else 0, st).

(** ** Community properties *)

(** Modelled from the spec: [exclusiveScanW(a, x)] of the utility layer
    (not in the sources): [a[i] = x[0] + ... + x[i-1]], returning the
    total. *)
Fixpoint exclusiveScanAcc (acc : nat) (x : list nat) : list nat * nat :=
  match x with
  | [] => ([], acc)
  | v :: x' => let '(r, t) := exclusiveScanAcc (acc + v) x' in (acc :: r, t)
  end.

Definition exclusiveScanW (x : list nat) : list nat * nat := exclusiveScanAcc 0 x.

(** [louvainCommunityExistsW] *)
Definition louvainCommunityExistsW (a : list nat) (x : Graph) (vcom : list nat)
    : list nat * nat :=
  foldl (fun '(a, C) u =>
           let c := vcom !!! u in
           (<[c := 1]> a, if a !!! c =? 0 then S C else C))
        (fillValueU a 0, 0) (vertexKeys x).

(** [louvainCommunityTotalDegreeW] *)
Definition louvainCommunityTotalDegreeW (a : list nat) (x : Graph) (vcom : list nat)
    : list nat :=
  foldl (fun a u => let c := vcom !!! u in <[c := a !!! c + degree x u]> a)
        (fillValueU a 0) (vertexKeys x).

(** [louvainCountCommunityVerticesW] *)
Definition louvainCountCommunityVerticesW (a : list nat) (x : Graph) (vcom : list nat)
    : list nat :=
  foldl (fun a u => let c := vcom !!! u in <[c := S (a !!! c)]> a)
        (fillValueU a 0) (vertexKeys x).

(** Modelled from the spec: [csrAddEdgeU(degrees, edgeKeys, offsets, u, v)]
    of [csr.hxx] (not in the sources): [edgeKeys[offsets[u] + degrees[u]++] = v]. *)
Definition csrAddEdgeU (cdeg cedg coff : list nat) (c u : nat) : list nat * list nat :=
  let i := coff !!! c + cdeg !!! c in
  (<[c := S (cdeg !!! c)]> cdeg, <[i := u]> cedg).

(** [louvainCommunityVerticesW]: returns [coff], [cdeg], [cedg]. *)
Definition louvainCommunityVerticesW (coff cdeg cedg : list nat) (x : Graph)
    (vcom : list nat) : list nat * list nat * list nat :=
  let C := length coff - 1 in
  let coff1 := louvainCountCommunityVerticesW coff x vcom in
  let '(coff2, tot) := exclusiveScanW coff1 in
  let coff3 := <[C := tot]> coff2 in
  let '(cdeg', cedg') :=
    foldl (fun '(cdeg, cedg) u => csrAddEdgeU cdeg cedg coff3 (vcom !!! u) u)
          (fillValueU cdeg 0, cedg) (vertexKeys x) in
  (coff3, cdeg', cedg').

(** [csrForEachEdgeKey(coff, cedg, c, ...)]: the slice [coff[c] .. coff[c+1]). *)
Definition csrSlice (coff cedg : list nat) (c : nat) : list nat :=
  take (coff !!! S c - coff !!! c) (drop (coff !!! c) cedg).

(** [louvainLookupCommunitiesU] *)
Definition louvainLookupCommunitiesU (a vcom : list nat) : list nat :=
  map (fun v => vcom !!! v) a.

(** [louvainRenumberCommunitiesW]: returns the new [vcom], [cext] and [C]. *)
Definition louvainRenumberCommunitiesW (vcom cext : list nat) (x : Graph)
    : list nat * list nat * nat :=
  let '(cext', C) := exclusiveScanW cext in
  (louvainLookupCommunitiesU vcom cext', cext', C).

(** ** Aggregation phase *)

(** [louvainAggregateEdgesW]: the out-edges emitted for each community
    [c < C], in the order of [csrAddEdgeU(ydeg, yedg, ywei, yoff, c, d, vcout[d])],
    with the final scratch.  Community [c] owns the slice
    [yoff[c] .. yoff[c+1]) of the output CSR, whose length (the total degree
    of the vertices of [c], [louvainCommunityTotalDegreeW]) bounds the
    number of scanned edges, hence of emitted ones: the slices never
    overlap and the edges of [c] in [y] are exactly the list below. *)
Definition louvainAggregateEdgesW (vcs : list nat) (vcout : list Z) (x : Graph)
    (vcom coff cedg : list nat) : list (list (nat * Z)) * list nat * list Z :=
  let C := length coff - 1 in
  foldl (fun '(yadj, vcs, vcout) c =>
           let n := coff !!! S c - coff !!! c in
           if n =? 0 then (yadj ++ [[]], vcs, vcout) else
           let '(vcs1, vcout1) := louvainClearScanW vcs vcout in
           let '(vcs2, vcout2) :=
             foldl (fun '(vcs, vcout) u => louvainScanCommunitiesW true vcs vcout x u vcom)
                   (vcs1, vcout1) (csrSlice coff cedg c) in
           (yadj ++ [map (fun d => (d, vcout2 !!! d)) vcs2], vcs2, vcout2))
        ([], vcs, vcout) (seq 0 C).

(** [louvainAggregateW]: the aggregated graph [y] over the [C] communities
    (every community id [< C] is a vertex of the [DiGraphCsr]), with the
    final scratch. *)
Definition louvainAggregateW (vcs : list nat) (vcout : list Z) (x : Graph)
    (vcom coff cedg : list nat) : Graph * list nat * list Z :=
  let C := length coff - 1 in
  let '(yadj, vcs', vcout') := louvainAggregateEdgesW vcs vcout x vcom coff cedg in
  (mkGraph C (repeat true C) yadj, vcs', vcout').

(** ** Pass driver *)

Record LouvainOptions := mkLouvainOptions {
  resolution : Q;
  tolerance : Q;
  aggregationTolerance : Q;
  toleranceDecline : Q;
  maxIterations : nat;
  maxPasses : nat
}.

(** The state of the driver between passes: the current level graph
    ([x] on the first pass, [y] afterwards), the tables sized [S = x.span()],
    the membership [a] and the tolerance [E]. *)
Record DState := mkDState {
  d_g : Graph;
  d_vcom : list nat;
  d_vtot : list Z;
  d_ctot : list Z;
  d_vaff : list bool;
  d_vcs : list nat;
  d_vcout : list Z;
  d_a : list nat;
  d_E : Q
}.

(** [copyValuesW(a, vcom)]: [a] and [vcom] both have length [S]. *)
Definition copyValuesW (a x : list nat) : list nat := x.

(** [fc = [&](double el, int l) { return el<=E; }] *)
Definition convergedFc (E : Q) (el : Q) (l : nat) : bool := Qle_bool el E.

(** Lines [cv.respan(CN) ... E /= o.toleranceDecline]: the community-vertex
    CSR, the aggregation into [y] and the singleton reset on [y].  The
    buffer [cv.edgeKeys] has length [S]; all its slots read afterwards are
    written first. *)
Definition louvainNextLevel (S : nat) (o : LouvainOptions) (g : Graph)
    (vcom : list nat) (vcs : list nat) (vcout : list Z) (a : list nat)
    (E : Q) (CN : nat) : DState :=
  let '(coff, cdeg, cedg) :=
    louvainCommunityVerticesW (repeat 0 (Datatypes.S CN)) (repeat 0 CN) (repeat 0 S) g vcom in
  let '(y, vcs', vcout') := louvainAggregateW vcs vcout g vcom coff cedg in
  let vtot := louvainVertexWeightsW (repeat 0%Z S) y in
  let '(vcom', ctot') := louvainInitializeW (repeat 0 S) (repeat 0%Z S) y vtot in
  mkDState y vcom' vtot ctot' (repeat true S) vcs' vcout' a
           (E / toleranceDecline o)%Q.

(** One pass of the loop of [louvainSeq], at pass number [p]: the value
    [m] of the local-mover, the state after the pass, and whether the
    loop goes on. *)
Definition louvainSeqPass (S : nat) (o : LouvainOptions) (M : Q) (p : nat)
    (st : DState) : nat * DState * bool :=
  let '(mkDState g vcom vtot ctot vaff vcs vcout a E) := st in
  let isFirst := p =? 0 in
  let '(m, ms) := louvainMoveW vcom ctot vaff vcs vcout g vtot M (resolution o)
                    (maxIterations o) (convergedFc E) in
  let '(mkMoveState vcom ctot vaff vcs vcout _) := ms in
  let a := if isFirst then copyValuesW a vcom else louvainLookupCommunitiesU a vcom in
  let st1 := mkDState g vcom vtot ctot vaff vcs vcout a E in
  if (m <=? 1) || (maxPasses o <=? Datatypes.S p) then (m, st1, false) else
  let GN := order g in
  let '(cext, CN) := louvainCommunityExistsW (repeat 0 (gspan g)) g vcom in
  if Qle_bool (aggregationTolerance o) (inject_Z (Z.of_nat CN) / inject_Z (Z.of_nat GN))
  then (m, st1, false) else
  let '(vcom, _, _) := louvainRenumberCommunitiesW vcom cext g in
  (m, louvainNextLevel S o g vcom vcs vcout a E CN, true).

(** [for (l=0, p=0; M>0 && p<P;) {...}]: [fuel] bounds the passes. *)
Fixpoint louvainSeqLoop (fuel : nat) (S : nat) (o : LouvainOptions) (M : Q)
    (l p : nat) (st : DState) : list nat * nat * nat :=
  match fuel with
  | O => (d_a st, l, p)
  | Datatypes.S fuel' =>
      if Qltb 0 M && (p <? maxPasses o) then
        let '(m, st', go) := louvainSeqPass S o M p st in
        if go then louvainSeqLoop fuel' S o M (l + Nat.max m 1) (Datatypes.S p) st'
        else (d_a st', l + Nat.max m 1, Datatypes.S p)
      else (d_a st, l, p)
  end.

(** The state before the first pass: fills, [fm(vaff)], [vtot] and the
    initial communities (from [q] when given). *)
Definition louvainInitialState (x : Graph) (q : option (list nat)) (o : LouvainOptions)
    (fm : list bool -> list bool) : DState :=
  let S := gspan x in
  let vaff := fm (repeat false S) in
  let vtot := louvainVertexWeightsW (repeat 0%Z S) x in
  let '(vcom, ctot) :=
    match q with
    | Some q => louvainInitializeFromW (repeat 0 S) (repeat 0%Z S) x vtot q
    | None => louvainInitializeW (repeat 0 S) (repeat 0%Z S) x vtot
    end in
  mkDState x vcom vtot ctot vaff [] (repeat 0%Z S) (repeat 0 S) (tolerance o).

(** [louvainSeq] (one repetition): [membership], [iterations], [passes]. *)
Definition louvainSeq (x : Graph) (q : option (list nat)) (o : LouvainOptions)
    (fm : list bool -> list bool) : list nat * nat * nat :=
  let M := (inject_Z (edgeWeight x) / 2)%Q in
  louvainSeqLoop (Datatypes.S (maxPasses o)) (gspan x) o M 0 0
                 (louvainInitialState x q o fm).

(** ** The OpenMP driver [louvainOmp], run by one thread

    With one thread the [...OmpW] routines compute what their sequential
    versions do; the driver differs from [louvainSeq] in its loop test
    ([P>0]) and in where it composes the membership [a]: after the
    renumbering inside the loop, and once more after the loop. *)

Definition louvainOmpPass (S : nat) (o : LouvainOptions) (M : Q) (p : nat)
    (st : DState) : nat * DState * bool :=
  let '(mkDState g vcom vtot ctot vaff vcs vcout a E) := st in
  let isFirst := p =? 0 in
  let '(m, ms) := louvainMoveW vcom ctot vaff vcs vcout g vtot M (resolution o)
                    (maxIterations o) (convergedFc E) in
  let '(mkMoveState vcom ctot vaff vcs vcout _) := ms in
  let st1 := mkDState g vcom vtot ctot vaff vcs vcout a E in
  if (m <=? 1) || (maxPasses o <=? Datatypes.S p) then (m, st1, false) else
  let GN := order g in
  let '(cext, CN) := louvainCommunityExistsW (repeat 0 (gspan g)) g vcom in
  if Qle_bool (aggregationTolerance o) (inject_Z (Z.of_nat CN) / inject_Z (Z.of_nat GN))
  then (m, st1, false) else
  let '(vcom, _, _) := louvainRenumberCommunitiesW vcom cext g in
  let a := if isFirst then copyValuesW a vcom else louvainLookupCommunitiesU a vcom in
  (m, louvainNextLevel S o g vcom vcs vcout a E CN, true).

(** [for (l=0, p=0; M>0 && P>0;) {...}] *)
Fixpoint louvainOmpLoop (fuel : nat) (S : nat) (o : LouvainOptions) (M : Q)
    (l p : nat) (st : DState) : DState * nat * nat :=
  match fuel with
  | O => (st, l, p)
  | Datatypes.S fuel' =>
      if Qltb 0 M && (0 <? maxPasses o) then
        let '(m, st', go) := louvainOmpPass S o M p st in
        if go then louvainOmpLoop fuel' S o M (l + Nat.max m 1) (Datatypes.S p) st'
        else (st', l + Nat.max m 1, Datatypes.S p)
      else (st, l, p)
  end.

(** [louvainOmp] (one repetition, one thread). *)
Definition louvainOmp (x : Graph) (q : option (list nat)) (o : LouvainOptions)
    (fm : list bool -> list bool) : list nat * nat * nat :=
  let M := (inject_Z (edgeWeight x) / 2)%Q in
  let '(st, l, p) := louvainOmpLoop (Datatypes.S (maxPasses o)) (gspan x) o M 0 0
                                     (louvainInitialState x q o fm) in
  let a := if p <=? 1 then copyValuesW (d_a st) (d_vcom st)
           else louvainLookupCommunitiesU (d_a st) (d_vcom st) in
  (a, l, p).

(** [LouvainOptions()] and [louvainStaticSeq]'s [fm] (all affected). *)
Definition defaultOptions : LouvainOptions :=
  mkLouvainOptions 1%Q (1#100)%Q (8#10)%Q 100%Q 20 10.

Definition staticFm (vaff : list bool) : list bool := fillValueU vaff true.

(** Test graphs: vertices [0 .. n-1], all present, from an undirected edge
    list (each edge [(u, v, w)] listed at [u] and at [v]). *)
Definition undirected (n : nat) (es : list (nat * nat * Z)) : Graph :=
  mkGraph n (repeat true n)
    (map (fun u => flat_map (fun '(a, b, w) =>
                               (if a =? u then [(b, w)] else []) ++
                               (if (b =? u) && negb (a =? b) then [(a, w)] else []))
                            es)
         (seq 0 n)).

Definition threeTriangles : Graph :=
  undirected 9 [(0,1,1%Z); (0,2,1%Z); (1,2,1%Z);
                (3,4,1%Z); (3,5,1%Z); (4,5,1%Z);
                (6,7,1%Z); (6,8,1%Z); (7,8,1%Z)].

(** The values [m] returned by the local-mover, one per executed pass of
    [louvainSeq] (the same loop as [louvainSeqLoop], recording [m]). *)
Fixpoint louvainSeqMoves (fuel : nat) (S : nat) (o : LouvainOptions) (M : Q)
    (p : nat) (st : DState) : list nat :=
  match fuel with
  | O => []
  | Datatypes.S fuel' =>
      if Qltb 0 M && (p <? maxPasses o) then
        let '(m, st', go) := louvainSeqPass S o M p st in
        if go then m :: louvainSeqMoves fuel' S o M (Datatypes.S p) st' else [m]
      else []
  end.

Definition louvainSeqMovesOf (x : Graph) (q : option (list nat)) (o : LouvainOptions)
    (fm : list bool -> list bool) : list nat :=
  louvainSeqMoves (Datatypes.S (maxPasses o)) (gspan x) o (inject_Z (edgeWeight x) / 2)%Q 0
                  (louvainInitialState x q o fm).

(** * Properties *)

Section Frame.

(** ** C10: frame of [louvainChangeCommunityW] *)

(** Claim C10: [louvainChangeCommunityW vcom ctot x u c vtot], with [d]
    the community of [u] on entry, sets [vcom[u] = c], decreases [ctot[d]]
    by [vtot[u]] and increases [ctot[c]] by [vtot[u]] (both applied in
    turn, so when [c = d] the entry is unchanged), and leaves every other
    entry of [vcom] and [ctot] as it was; [vtot] is an input only and is
    not written. *)
Theorem louvainChangeCommunityW_frame (vcom : list nat) (ctot vtot : list Z)
    (x : Graph) (u c : nat) :
  u < length vcom -> vcom !!! u < length ctot -> c < length ctot ->
  let d := vcom !!! u in
  let '(vcom', ctot') := louvainChangeCommunityW vcom ctot x u c vtot in
  vcom' !!! u = c /\ (forall i, i <> u -> vcom' !!! i = vcom !!! i) /\
  length vcom' = length vcom /\ length ctot' = length ctot /\
  (forall i, i <> c -> i <> d -> ctot' !!! i = ctot !!! i) /\
  (c <> d -> ctot' !!! d = (ctot !!! d - vtot !!! u)%Z /\
             ctot' !!! c = (ctot !!! c + vtot !!! u)%Z) /\
  (c = d -> ctot' !!! c = ctot !!! c).
Proof.
  intros Hu Hd Hc d. unfold louvainChangeCommunityW. cbv zeta. fold d.
  split; [|split; [|split; [|split; [|split; [|split]]]]].
  - by apply list_lookup_total_insert_eq.
  - intros i Hi. by apply list_lookup_total_insert_ne.
  - by rewrite length_insert.
  - by rewrite !length_insert.
  - intros i Hic Hid.
    rewrite list_lookup_total_insert_ne by congruence.
    by rewrite list_lookup_total_insert_ne by congruence.
  - intros Hcd. split.
    + rewrite list_lookup_total_insert_ne by congruence.
      by rewrite list_lookup_total_insert_eq by exact Hd.
    + rewrite list_lookup_total_insert_eq by (rewrite length_insert; lia).
      by rewrite list_lookup_total_insert_ne by congruence.
  - intros ->. rewrite list_lookup_total_insert_eq by (rewrite length_insert; lia).
    rewrite list_lookup_total_insert_eq by lia. lia.
Qed.

End Frame.

(** ** C9: the scratch hashtable *)

Section Scratch.

(** [vcout[c]] is nonzero only for [c] listed in [vcs]. *)
Definition scratchInv (vcs : list nat) (vcout : list Z) : Prop :=
  forall i z, vcout !! i = Some z -> z <> 0%Z -> i ∈ vcs.

Definition scanOps (vcs : list nat) (vcout : list Z)
    (ops : list (bool * nat * nat * Z * list nat)) : list nat * list Z :=
  foldl (fun '(vcs, vcout) '(SELF, u, v, w, vcom) =>
           louvainScanCommunityW SELF vcs vcout u v w vcom) (vcs, vcout) ops.

Lemma scratchInv_zero (vcout : list Z) :
  Forall (fun z => z = 0%Z) vcout -> scratchInv [] vcout.
Proof.
  intros HF i z Hi Hz. exfalso. apply Hz.
  by apply (proj1 (Forall_lookup _ _) HF i z).
Qed.

Lemma louvainScanCommunityW_inv SELF vcs vcout u v w vcom :
  scratchInv vcs vcout ->
  scratchInv (louvainScanCommunityW SELF vcs vcout u v w vcom).1
             (louvainScanCommunityW SELF vcs vcout u v w vcom).2.
Proof.
  intros H. unfold louvainScanCommunityW.
  destruct (negb SELF && (u =? v)); [exact H|]. cbn.
  set (c := vcom !!! v).
  intros i z Hi Hz.
  destruct (decide (i = c)) as [->|Hne].
  - destruct (Z.eqb_spec (vcout !!! c) 0) as [E|E].
    + apply elem_of_app. right. by apply list_elem_of_singleton.
    + destruct (decide (c < length vcout)) as [Hlt|Hge].
      * apply (H c (vcout !!! c)); [|exact E].
        rewrite list_lookup_total_alt. destruct (lookup_lt_is_Some_2 vcout c Hlt) as [y Hy].
        by rewrite Hy.
      * exfalso. rewrite list_insert_ge in Hi by lia.
        rewrite lookup_ge_None_2 in Hi by lia. discriminate.
  - rewrite list_lookup_insert_ne in Hi by congruence.
    pose proof (H i z Hi Hz) as Hin.
    destruct (Z.eqb (vcout !!! c) 0); [apply elem_of_app; by left|exact Hin].
Qed.

Lemma scanOps_inv vcs vcout ops :
  scratchInv vcs vcout -> scratchInv (scanOps vcs vcout ops).1 (scanOps vcs vcout ops).2.
Proof.
  revert vcs vcout. induction ops as [|[[[[SELF u] v] w] vcom] ops IH]; intros vcs vcout H.
  - exact H.
  - unfold scanOps. cbn [foldl].
    pose proof (louvainScanCommunityW_inv SELF vcs vcout u v w vcom H) as H1.
    destruct (louvainScanCommunityW SELF vcs vcout u v w vcom) as [vcs1 vcout1].
    apply (IH vcs1 vcout1 H1).
Qed.

Lemma clear_foldl_lookup (L : list nat) (vcout : list Z) i :
  let r := foldl (fun vcout c => <[c := 0%Z]> vcout) vcout L in
  (i ∈ L -> r !! i = None \/ r !! i = Some 0%Z) /\
  (i ∉ L -> r !! i = vcout !! i).
Proof.
  revert vcout. induction L as [|c L IH]; intros vcout; cbn [foldl].
  - split; [intros Hin; by apply not_elem_of_nil in Hin|done].
  - destruct (IH (<[c:=0%Z]> vcout)) as [IH1 IH2]. split.
    + intros Hin. destruct (decide (i ∈ L)) as [HL|HL]; [by apply IH1|].
      rewrite IH2 by exact HL.
      apply elem_of_cons in Hin as [->|Hin]; [|done].
      rewrite list_lookup_insert. case_decide; [by right|].
      destruct (decide (c < length vcout)); [tauto|].
      left. by apply lookup_ge_None_2; lia.
    + intros Hin. rewrite IH2 by (intros H; apply Hin; by apply elem_of_cons; right).
      apply list_lookup_insert_ne. intros ->. apply Hin. by apply elem_of_cons; left.
Qed.

Lemma louvainClearScanW_zero vcs vcout :
  scratchInv vcs vcout ->
  (louvainClearScanW vcs vcout).1 = [] /\
  Forall (fun z => z = 0%Z) (louvainClearScanW vcs vcout).2.
Proof.
  intros H. split; [done|]. apply Forall_lookup. intros i z Hi. cbn in Hi.
  destruct (clear_foldl_lookup vcs vcout i) as [H1 H2].
  destruct (decide (i ∈ vcs)) as [Hin|Hin].
  - destruct (H1 Hin) as [E|E]; congruence.
  - rewrite H2 in Hi by exact Hin.
    destruct (Z.eq_dec z 0%Z) as [|Hz]; [done|]. by pose proof (H i z Hi Hz).
Qed.

(** Claim C9: starting from an all-zero [vcout] and an empty [vcs], after
    any sequence of [louvainScanCommunityW] operations followed by one
    [louvainClearScanW], [vcout] is all zero and [vcs] is empty. *)
Theorem louvainClearScanW_after_scans (vcout0 : list Z)
    (ops : list (bool * nat * nat * Z * list nat)) :
  Forall (fun z => z = 0%Z) vcout0 ->
  let '(vcs, vcout) := scanOps [] vcout0 ops in
  (louvainClearScanW vcs vcout).1 = [] /\
  Forall (fun z => z = 0%Z) (louvainClearScanW vcs vcout).2.
Proof.
  intros H. pose proof (scanOps_inv [] vcout0 ops (scratchInv_zero vcout0 H)) as Hi.
  destruct (scanOps [] vcout0 ops) as [vcs vcout].
  by apply louvainClearScanW_zero.
Qed.

End Scratch.

(** ** C4: the iteration count of the driver *)

Section Iterations.

Lemma louvainSeqLoop_iterations fuel S o M l p st :
  (louvainSeqLoop fuel S o M l p st).1.2 =
  l + sum_list (map (fun m => Nat.max m 1) (louvainSeqMoves fuel S o M p st)).
Proof.
  revert l p st. induction fuel as [|fuel IH]; intros l p st; cbn [louvainSeqLoop louvainSeqMoves].
  - cbn. lia.
  - destruct (Qltb 0 M && (p <? maxPasses o)); [|cbn; lia].
    destruct (louvainSeqPass S o M p st) as [[m st'] go].
    destruct go; cbn [map sum_list].
    + rewrite IH. cbn. lia.
    + cbn. lia.
Qed.

(** Claim C4 (as amended): the [iterations] of [louvainSeq] is the sum,
    over the executed passes, of [max(m, 1)] where [m] is the value the
    local-mover returned for that pass; a pass whose local-mover returns
    [0] contributes [1], and when no pass runs the count is [0]. *)
Theorem louvainSeq_iterations (x : Graph) (q : option (list nat))
    (o : LouvainOptions) (fm : list bool -> list bool) :
  (louvainSeq x q o fm).1.2 =
  sum_list (map (fun m => Nat.max m 1) (louvainSeqMovesOf x q o fm)).
Proof. unfold louvainSeq, louvainSeqMovesOf. by rewrite louvainSeqLoop_iterations. Qed.

(** A single edge [0 -- 1] of weight 1. *)
Definition singleEdge : Graph := undirected 2 [(0, 1, 1%Z)].

(** Claim C4 fails: with the preloaded partition [q = [0; 0]] the
    local-mover returns [0] on the only pass, yet [iterations] is [1], not
    the sum [0] of the returned values. *)
Lemma louvainSeq_iterations_not_sum :
  louvainSeqMovesOf singleEdge (Some [0; 0]) defaultOptions staticFm = [0] /\
  louvainSeq singleEdge (Some [0; 0]) defaultOptions staticFm = ([0; 0], 1, 1) /\
  (louvainSeq singleEdge (Some [0; 0]) defaultOptions staticFm).1.2 <>
  sum_list (louvainSeqMovesOf singleEdge (Some [0; 0]) defaultOptions staticFm).
Proof. vm_compute. split; [done|split; [done|lia]]. Qed.

End Iterations.

(** ** C1, C3: the membership returned by the drivers *)

Section Membership.

(** Claim C1 (code defect): on three disjoint triangles the first pass
    puts them in communities [1], [4] and [7], renumbered [0], [1], [2] for
    the second level, where nothing moves.  The walk through the levels
    gives [[0;0;0;1;1;1;2;2;2]], which the OpenMP driver (composing after
    the renumbering) returns; [louvainSeq] composes [a] before the
    renumbering and then looks the old labels [1], [4], [7] up in the
    second-level [vcom], returning [[1;1;1;0;0;0;0;0;0]]: the second and
    third triangles are merged. *)
Theorem louvainSeq_membership_threeTriangles :
  louvainSeq threeTriangles None defaultOptions staticFm =
    ([1; 1; 1; 0; 0; 0; 0; 0; 0], 3, 2) /\
  louvainOmp threeTriangles None defaultOptions staticFm =
    ([0; 0; 0; 1; 1; 1; 2; 2; 2], 3, 2).
Proof. split; vm_compute; reflexivity. Qed.

(** [n] isolated vertices. *)
Definition isolated (n : nat) : Graph := undirected n [].

(** Claim C3 (code defect): on 10 isolated vertices ([M = 0])
    [louvainSeq] returns 0 iterations and 0 passes but the all-zero
    membership, not the identity; the OpenMP driver returns the identity. *)
Theorem louvainSeq_empty_graph :
  edgeWeight (isolated 10) = 0%Z /\
  louvainSeq (isolated 10) None defaultOptions staticFm =
    (repeat 0 10, 0, 0) /\
  louvainOmp (isolated 10) None defaultOptions staticFm =
    (seq 0 10, 0, 0).
Proof. split; [|split]; vm_compute; reflexivity. Qed.

End Membership.

(** ** C2: the sentinel community [K()] *)

Section Sentinel.

(** Claim C2 (code defect): with [vcom = [0; 1]] on the single edge
    [0 -- 1] and only vertex [1] affected, the scorer picks community [0]
    with gain [1/2 > 0]; the test [if (c)] reads [c = 0] as the sentinel,
    so [louvainMoveW] does not move vertex [1] (its [vcom] stays
    [[0; 1]]) while counting the gain in [el].  Through [louvainSeq] with
    the same affected set, the returned membership is [[0; 1]]. *)
Theorem louvainMoveW_community_zero :
  let vtot := louvainVertexWeightsW [0%Z; 0%Z] singleEdge in
  let M := (inject_Z (edgeWeight singleEdge) / 2)%Q in
  vtot = [1%Z; 1%Z] /\
  (louvainChooseCommunity false singleEdge 1 [0; 1] vtot vtot [0] [1%Z; 0%Z] M 1%Q).1 = 0 /\
  Qeq (louvainChooseCommunity false singleEdge 1 [0; 1] vtot vtot [0] [1%Z; 0%Z] M 1%Q).2
      (1 # 2) /\
  ms_vcom (louvainMoveW [0; 1] vtot [false; true] [] [0%Z; 0%Z] singleEdge vtot M 1%Q 1
             (convergedFc (1 # 100))).2 = [0; 1] /\
  Qeq (ms_el (louvainMoveW [0; 1] vtot [false; true] [] [0%Z; 0%Z] singleEdge vtot M 1%Q 1
                (convergedFc (1 # 100))).2) (1 # 2) /\
  louvainSeq singleEdge None defaultOptions (fun _ => [false; true]) = ([0; 1], 2, 1).
Proof. cbv zeta. repeat split; vm_compute; reflexivity. Qed.

End Sentinel.

(** ** Graph and sum facts *)

Section Facts.

Lemma vertexKeys_NoDup (x : Graph) : NoDup (vertexKeys x).
Proof. unfold vertexKeys. apply NoDup_ListNoDup, List.NoDup_filter, seq_NoDup. Qed.

Lemma vertexKeys_lt (x : Graph) u : In u (vertexKeys x) -> u < gspan x.
Proof.
  unfold vertexKeys. intros H. apply List.filter_In in H as [H _].
  apply in_seq in H. lia.
Qed.

Lemma sumZ_app (l1 l2 : list Z) : sumZ (l1 ++ l2) = (sumZ l1 + sumZ l2)%Z.
Proof. unfold sumZ. induction l1 as [|a l1 IH]; cbn; [done|]. rewrite IH. lia. Qed.

Lemma sumZ_map_add {A} (f g : A -> Z) (l : list A) :
  sumZ (map (fun a => f a + g a)%Z l) = (sumZ (map f l) + sumZ (map g l))%Z.
Proof. unfold sumZ. induction l as [|a l IH]; cbn; [done|]. rewrite IH. lia. Qed.

Lemma sumZ_map_ext {A} (f g : A -> Z) (l : list A) :
  (forall a, In a l -> f a = g a) -> sumZ (map f l) = sumZ (map g l).
Proof.
  unfold sumZ. induction l as [|a l IH]; intros H; cbn; [done|].
  rewrite H by (left; done). rewrite IH; [done|].
  intros b Hb. apply H. by right.
Qed.

Lemma sumZ_map_zero {A} (l : list A) : sumZ (map (fun _ => 0%Z) l) = 0%Z.
Proof. unfold sumZ. induction l as [|a l IH]; cbn; [done|]. rewrite IH. lia. Qed.

(** Summing an indicator over [seq a n]. *)
Lemma sumZ_seq_indicator (k a n : nat) (v : Z) :
  sumZ (map (fun c => if k =? c then v else 0%Z) (seq a n)) =
  (if (a <=? k) && (k <? a + n) then v else 0%Z).
Proof.
  unfold sumZ. revert a. induction n as [|n IH]; intros a; cbn [seq map foldr].
  - destruct (Nat.leb_spec a k), (Nat.ltb_spec k (a + 0)); cbn; lia.
  - rewrite IH.
    destruct (Nat.eqb_spec k a) as [->|Hne].
    + rewrite Nat.leb_refl. replace (S a <=? a) with false by (symmetry; apply Nat.leb_gt; lia).
      replace (a <? a + S n) with true by (symmetry; apply Nat.ltb_lt; lia). cbn. lia.
    + destruct (Nat.leb_spec a k), (Nat.leb_spec (S a) k),
               (Nat.ltb_spec k (S a + n)), (Nat.ltb_spec k (a + S n)); cbn; lia.
Qed.

Lemma lookup_total_repeat {A} `{!Inhabited A} (v : A) n i :
  i < n -> repeat v n !!! i = v.
Proof.
  revert i. induction n as [|n IH]; intros i Hi; [lia|].
  destruct i; cbn; [done|]. apply IH. lia.
Qed.

(** [sumZ] of a list of length [S], through its indices. *)
Lemma sumZ_indices (l : list Z) :
  sumZ l = sumZ (map (fun c => l !!! c) (seq 0 (length l))).
Proof.
  induction l as [|a l IH]; [done|]. cbn [length]. rewrite <- cons_seq. cbn.
  rewrite <- seq_shift, map_map. unfold sumZ in *. rewrite IH. done.
Qed.

End Facts.

(** ** C6: the community weights [ctot] *)

Section CommunityWeights.

(** [Σ_{u ∈ ks, vcom[u] = c} vtot[u]] *)
Definition commWeight (ks vcom : list nat) (vtot : list Z) (c : nat) : Z :=
  sumZ (map (fun u => vtot !!! u) (List.filter (fun u => vcom !!! u =? c) ks)).

(** [ctot[c] = Σ_{u: vcom[u]=c} vtot[u]] for every community [c] of the table. *)
Definition ctotInv (x : Graph) (vcom : list nat) (vtot ctot : list Z) : Prop :=
  forall c, c < length ctot -> ctot !!! c = commWeight (vertexKeys x) vcom vtot c.

Lemma commWeight_cons k ks vcom vtot c :
  commWeight (k :: ks) vcom vtot c =
  ((if Nat.eqb (vcom !!! k) c then vtot !!! k else 0) + commWeight ks vcom vtot c)%Z.
Proof. unfold commWeight, sumZ. cbn. destruct (vcom !!! k =? c); cbn; lia. Qed.

Lemma commWeight_app ks1 ks2 vcom vtot c :
  commWeight (ks1 ++ ks2) vcom vtot c =
  (commWeight ks1 vcom vtot c + commWeight ks2 vcom vtot c)%Z.
Proof. unfold commWeight. by rewrite List.filter_app, map_app, sumZ_app. Qed.

Lemma commWeight_ext ks vcom1 vcom2 vtot c :
  (forall u, In u ks -> vcom1 !!! u = vcom2 !!! u) ->
  commWeight ks vcom1 vtot c = commWeight ks vcom2 vtot c.
Proof.
  induction ks as [|k ks IH]; intros H; [done|]. rewrite !commWeight_cons.
  rewrite H by (left; done). rewrite IH; [done|]. intros u Hu. apply H. by right.
Qed.

(** Moving one vertex [u] (listed once in [ks]) from [vcom[u]] to [c']. *)
Lemma commWeight_insert ks vcom vtot u c' c :
  NoDup ks -> In u ks -> u < length vcom ->
  commWeight ks (<[u := c']> vcom) vtot c =
  (commWeight ks vcom vtot c - (if Nat.eqb (vcom !!! u) c then vtot !!! u else 0)
   + (if Nat.eqb c' c then vtot !!! u else 0))%Z.
Proof.
  induction ks as [|k ks IH]; intros Hnd Hin Hu; [done|].
  apply NoDup_cons in Hnd as [Hk Hnd]. rewrite !commWeight_cons.
  destruct Hin as [->|Hin].
  - rewrite list_lookup_total_insert_eq by exact Hu.
    rewrite (commWeight_ext ks (<[u:=c']> vcom) vcom).
    + destruct (vcom !!! u =? c), (c' =? c); lia.
    + intros v Hv. apply list_lookup_total_insert_ne. intros ->. apply Hk.
      by apply list_elem_of_In.
  - rewrite list_lookup_total_insert_ne
      by (intros ->; apply Hk; by apply list_elem_of_In).
    rewrite IH by done. lia.
Qed.

(** Summing the community weights over all labels [< S]. *)
Lemma sumZ_commWeight ks vcom vtot S :
  (forall u, In u ks -> vcom !!! u < S) ->
  sumZ (map (commWeight ks vcom vtot) (seq 0 S)) = sumZ (map (fun u => vtot !!! u) ks).
Proof.
  induction ks as [|k ks IH]; intros H.
  - cbn. apply sumZ_map_zero.
  - rewrite (sumZ_map_ext _ (fun c => (if Nat.eqb (vcom !!! k) c then vtot !!! k else 0)
                                       + commWeight ks vcom vtot c)%Z)
      by (intros c _; apply commWeight_cons).
    rewrite sumZ_map_add, sumZ_seq_indicator, IH by (intros u Hu; apply H; by right).
    pose proof (H k (or_introl eq_refl)).
    replace ((0 <=? vcom !!! k) && (vcom !!! k <? 0 + S)) with true
      by (symmetry; apply andb_true_intro; split; [apply Nat.leb_le|apply Nat.ltb_lt]; lia).
    done.
Qed.

(** The labels of the vertices are table indices. *)
Definition labelsBelow (x : Graph) (vcom : list nat) (S : nat) : Prop :=
  forall u, In u (vertexKeys x) -> vcom !!! u < S.

Lemma commWeight_self ks vcom vtot c :
  NoDup ks -> (forall u, In u ks -> vcom !!! u = u) ->
  commWeight ks vcom vtot c = if in_dec Nat.eq_dec c ks then vtot !!! c else 0%Z.
Proof.
  induction ks as [|k ks IH]; intros Hnd H; [done|].
  apply NoDup_cons in Hnd as [Hk Hnd]. rewrite commWeight_cons.
  rewrite H by (left; done). rewrite IH by (done || (intros u Hu; apply H; by right)).
  destruct (Nat.eqb_spec k c) as [->|Hne].
  - destruct (in_dec Nat.eq_dec c ks) as [Hin|Hin].
    + exfalso. apply Hk. by apply list_elem_of_In.
    + destruct (in_dec Nat.eq_dec c (c :: ks)) as [_|Hn]; [lia|]. exfalso. apply Hn. by left.
  - destruct (in_dec Nat.eq_dec c ks) as [Hin|Hin];
    destruct (in_dec Nat.eq_dec c (k :: ks)) as [Hin'|Hin'].
    + lia.
    + exfalso. apply Hin'. by right.
    + destruct Hin' as [->|Hin']; [done|done].
    + lia.
Qed.

Lemma louvainInitializeW_fold ks (vcom : list nat) (ctot vtot : list Z) :
  (forall u, In u ks -> u < length vcom /\ u < length ctot) ->
  let '(vcom', ctot') :=
    foldl (fun '(vcom, ctot) u => (<[u := u]> vcom, <[u := vtot !!! u]> ctot))
          (vcom, ctot) ks in
  length vcom' = length vcom /\ length ctot' = length ctot /\
  (forall u, In u ks -> vcom' !!! u = u /\ ctot' !!! u = vtot !!! u) /\
  (forall u, ~ In u ks -> vcom' !!! u = vcom !!! u /\ ctot' !!! u = ctot !!! u).
Proof.
  revert vcom ctot. induction ks as [|k ks IH]; intros vcom ctot Hb; cbn [foldl].
  - split; [done|split; [done|split]]; [intros u []|done].
  - destruct (Hb k (or_introl eq_refl)) as [Hk1 Hk2].
    specialize (IH (<[k:=k]> vcom) (<[k:=vtot !!! k]> ctot)).
    destruct (foldl _ _ ks) as [vcom' ctot'].
    destruct IH as (L1 & L2 & Hin & Hout).
    { intros u Hu. rewrite !length_insert. apply Hb. by right. }
    rewrite length_insert in L1. rewrite length_insert in L2.
    split; [done|split; [done|split]].
    + intros u [->|Hu]; [|by apply Hin].
      destruct (in_dec Nat.eq_dec u ks) as [Hu|Hu]; [by apply Hin|].
      destruct (Hout u Hu) as [-> ->].
      by rewrite !list_lookup_total_insert_eq.
    + intros u Hu. destruct (Hout u (fun H => Hu (or_intror H))) as [-> ->].
      rewrite !list_lookup_total_insert_ne; [done| |]; intros ->; apply Hu; by left.
Qed.

Lemma louvainInitializeFromW_fold pre rest (vcom : list nat) (ctot vtot : list Z)
    (q : list nat) S :
  length ctot = S ->
  (forall u, In u rest -> u < length vcom /\ q !!! u < S) ->
  (forall u, In u pre -> vcom !!! u = q !!! u) ->
  (forall c, c < S -> ctot !!! c = commWeight pre q vtot c) ->
  let '(vcom', ctot') :=
    foldl (fun '(vcom, ctot) u =>
             let c := q !!! u in
             (<[u := c]> vcom, <[c := (ctot !!! c + vtot !!! u)%Z]> ctot))
          (vcom, ctot) rest in
  length vcom' = length vcom /\ length ctot' = S /\
  (forall u, In u (pre ++ rest) -> vcom' !!! u = q !!! u) /\
  (forall c, c < S -> ctot' !!! c = commWeight (pre ++ rest) q vtot c).
Proof.
  revert pre vcom ctot. induction rest as [|k rest IH]; intros pre vcom ctot HL Hb Hv Hc;
    cbn [foldl].
  - rewrite app_nil_r. done.
  - destruct (Hb k (or_introl eq_refl)) as [Hk1 Hk2].
    specialize (IH (pre ++ [k]) (<[k:=q !!! k]> vcom)
                   (<[q !!! k := (ctot !!! (q !!! k) + vtot !!! k)%Z]> ctot)).
    destruct (foldl _ _ rest) as [vcom' ctot'].
    rewrite <- app_assoc in IH. cbn in IH.
    destruct IH as (L1 & L2 & Hin & Hout).
    + by rewrite length_insert.
    + intros u Hu. rewrite length_insert. apply Hb. by right.
    + intros u Hu. apply in_app_or in Hu as [Hu|[<-|[]]].
      * destruct (Nat.eq_dec u k) as [->|Hne]; [by rewrite list_lookup_total_insert_eq|].
        rewrite list_lookup_total_insert_ne by congruence. by apply Hv.
      * by rewrite list_lookup_total_insert_eq.
    + intros c Hlt. rewrite commWeight_app, commWeight_cons.
      change (commWeight [] q vtot c) with 0%Z. rewrite Z.add_0_r.
      destruct (Nat.eqb_spec (q !!! k) c) as [<-|Hne].
      * rewrite list_lookup_total_insert_eq by lia. rewrite Hc by lia. lia.
      * rewrite list_lookup_total_insert_ne by done. rewrite Hc by done. lia.
    + rewrite length_insert in L1. done.
Qed.

Lemma louvainChangeCommunityW_inv (x : Graph) (vcom : list nat) (ctot vtot : list Z) u c :
  length vcom = gspan x -> length ctot = gspan x ->
  labelsBelow x vcom (gspan x) -> ctotInv x vcom vtot ctot ->
  In u (vertexKeys x) -> c < gspan x ->
  let '(vcom', ctot') := louvainChangeCommunityW vcom ctot x u c vtot in
  length vcom' = gspan x /\ length ctot' = gspan x /\
  labelsBelow x vcom' (gspan x) /\ ctotInv x vcom' vtot ctot'.
Proof.
  intros Hlv Hlc Hlab Hinv Hu Hc. unfold louvainChangeCommunityW. cbv zeta.
  set (d := vcom !!! u).
  assert (Hd : d < gspan x) by (apply Hlab, Hu).
  pose proof (vertexKeys_lt x u Hu) as Hus.
  split; [by rewrite length_insert|split; [by rewrite !length_insert|split]].
  - intros v Hv. destruct (Nat.eq_dec v u) as [->|Hne].
    + rewrite list_lookup_total_insert_eq by lia. done.
    + rewrite list_lookup_total_insert_ne by congruence. by apply Hlab.
  - intros c'' Hc''. rewrite !length_insert in Hc''.
    rewrite (commWeight_insert (vertexKeys x) vcom vtot u c c'')
      by (apply vertexKeys_NoDup || done || lia).
    rewrite <- (Hinv c'') by lia. fold d.
    rewrite !list_lookup_total_insert.
    rewrite length_insert. clearbody d.
    destruct (Nat.eqb_spec d c''), (Nat.eqb_spec c c'');
      repeat case_decide; destruct_and?; subst; lia.
Qed.

(** Claim C6: after the initialization of the communities (singletons, or
    from a given partition [q], over the zero-filled tables of
    [louvainSeq]) and after every [louvainChangeCommunityW] of a sequence
    of moves of vertices [u] to communities [c] (table indices),
    [ctot[c] = Σ_{u: vcom[u]=c} vtot[u]] for every community [c]; hence
    [Σ_c ctot[c] = Σ_u vtot[u]].  Any prefix of [moves] is itself a
    sequence of moves, so the property holds after each of them. *)
Theorem ctot_invariant (x : Graph) (vtot : list Z) (q : option (list nat))
    (moves : list (nat * nat)) :
  (forall qv u, q = Some qv -> In u (vertexKeys x) -> qv !!! u < gspan x) ->
  (forall u c, In (u, c) moves -> In u (vertexKeys x) /\ c < gspan x) ->
  let S := gspan x in
  let '(vcom0, ctot0) :=
    match q with
    | Some qv => louvainInitializeFromW (repeat 0 S) (repeat 0%Z S) x vtot qv
    | None => louvainInitializeW (repeat 0 S) (repeat 0%Z S) x vtot
    end in
  let '(vcom, ctot) :=
    foldl (fun '(vcom, ctot) '(u, c) => louvainChangeCommunityW vcom ctot x u c vtot)
          (vcom0, ctot0) moves in
  ctotInv x vcom vtot ctot /\
  sumZ ctot = sumZ (map (fun u => vtot !!! u) (vertexKeys x)).
Proof.
  intros Hq Hm S.
  (* the state after the initialization *)
  assert (Hinit : forall vcom0 ctot0,
            (vcom0, ctot0) = match q with
              | Some qv => louvainInitializeFromW (repeat 0 S) (repeat 0%Z S) x vtot qv
              | None => louvainInitializeW (repeat 0 S) (repeat 0%Z S) x vtot
              end ->
            length vcom0 = S /\ length ctot0 = S /\ labelsBelow x vcom0 S /\
            ctotInv x vcom0 vtot ctot0).
  { intros vcom0 ctot0 E. destruct q as [qv|].
    - pose proof (louvainInitializeFromW_fold [] (vertexKeys x) (repeat 0 S) (repeat 0%Z S)
                    vtot qv S) as H.
      unfold louvainInitializeFromW in E. cbv zeta in E, H. rewrite <- E in H. cbn [app] in H.
      destruct H as (L1 & L2 & Hv & Hc).
      + apply repeat_length.
      + intros u Hu. rewrite repeat_length. split; [by apply vertexKeys_lt|by apply (Hq qv)].
      + intros u [].
      + intros c Hc. rewrite lookup_total_repeat by lia. done.
      + rewrite repeat_length in L1.
        split; [done|split; [done|split]].
        * intros u Hu. rewrite Hv by done. by apply (Hq qv).
        * intros c Hlt. rewrite Hc by lia. apply commWeight_ext.
          intros u Hu. symmetry. by apply Hv.
    - pose proof (louvainInitializeW_fold (vertexKeys x) (repeat 0 S) (repeat 0%Z S) vtot)
        as H.
      unfold louvainInitializeW in E. rewrite <- E in H.
      destruct H as (L1 & L2 & Hin & Hout).
      + intros u Hu. rewrite !repeat_length. split; by apply vertexKeys_lt.
      + rewrite repeat_length in L1, L2.
        split; [done|split; [done|split]].
        * intros u Hu. rewrite (proj1 (Hin u Hu)). by apply vertexKeys_lt.
        * intros c Hc. rewrite (commWeight_self _ _ _ _ (vertexKeys_NoDup x))
            by (intros u Hu; apply (Hin u Hu)).
          destruct (in_dec Nat.eq_dec c (vertexKeys x)) as [Hc'|Hc'].
          -- apply (Hin c Hc').
          -- rewrite (proj2 (Hout c Hc')). apply lookup_total_repeat. lia. }
  destruct (match q with Some qv => _ | None => _ end) as [vcom0 ctot0] eqn:E0.
  destruct (Hinit vcom0 ctot0 eq_refl) as (L1 & L2 & Hlab & Hinv).
  clear Hinit E0.
  revert vcom0 ctot0 L1 L2 Hlab Hinv.
  induction moves as [|[u c] moves IH]; intros vcom0 ctot0 L1 L2 Hlab Hinv; cbn [foldl].
  - split; [done|].
    rewrite sumZ_indices, L2.
    rewrite (sumZ_map_ext _ (commWeight (vertexKeys x) vcom0 vtot))
      by (intros c Hc; apply in_seq in Hc; apply Hinv; lia).
    by apply sumZ_commWeight.
  - destruct (Hm u c (or_introl eq_refl)) as [Hu Hc].
    pose proof (louvainChangeCommunityW_inv x vcom0 ctot0 vtot u c L1 L2 Hlab Hinv Hu Hc)
      as H1.
    destruct (louvainChangeCommunityW vcom0 ctot0 x u c vtot) as [vcom1 ctot1].
    destruct H1 as (L1' & L2' & Hlab' & Hinv').
    apply IH; try done. intros u' c' Hin. apply Hm. by right.
Qed.

End CommunityWeights.

(** ** C7: renumbering the communities *)

Section Renumber.

(** Community [c] is nonempty: some vertex of [x] has label [c]. *)
Definition isNonempty (x : Graph) (vcom : list nat) (c : nat) : bool :=
  existsb (fun u => Nat.eqb (vcom !!! u) c) (vertexKeys x).

Lemma sum_list_insert (l : list nat) i v :
  i < length l -> sum_list (<[i := v]> l) + l !!! i = sum_list l + v.
Proof.
  revert i. induction l as [|a l IH]; intros i Hi; cbn in Hi; [lia|].
  destruct i as [|i]; simpl; [lia|]. specialize (IH i ltac:(lia)). lia.
Qed.

Lemma louvainCommunityExistsW_fold (vcom : list nat) pre rest (a : list nat) C S :
  length a = S ->
  (forall u, In u rest -> vcom !!! u < S) ->
  (forall c, c < S -> a !!! c = if existsb (fun u => Nat.eqb (vcom !!! u) c) pre then 1 else 0) ->
  C = sum_list a ->
  let '(a', C') :=
    foldl (fun '(a, C) u =>
             let c := vcom !!! u in
             (<[c := 1]> a, if a !!! c =? 0 then Datatypes.S C else C))
          (a, C) rest in
  length a' = S /\
  (forall c, c < S ->
     a' !!! c = if existsb (fun u => Nat.eqb (vcom !!! u) c) (pre ++ rest) then 1 else 0) /\
  C' = sum_list a'.
Proof.
  revert pre a C. induction rest as [|k rest IH]; intros pre a C HL Hb Ha HC; cbn [foldl].
  - rewrite app_nil_r. done.
  - pose proof (Hb k (or_introl eq_refl)) as Hk.
    specialize (IH (pre ++ [k]) (<[vcom !!! k := 1]> a)
                   (if a !!! (vcom !!! k) =? 0 then Datatypes.S C else C)).
    rewrite <- app_assoc in IH. apply IH.
    + by rewrite length_insert.
    + intros u Hu. apply Hb. by right.
    + intros c Hc. rewrite existsb_app. cbn. rewrite orb_false_r.
      destruct (Nat.eqb_spec (vcom !!! k) c) as [<-|Hne].
      * rewrite list_lookup_total_insert_eq by lia. by rewrite orb_true_r.
      * rewrite list_lookup_total_insert_ne by done. rewrite orb_false_r. by apply Ha.
    + pose proof (sum_list_insert a (vcom !!! k) 1 ltac:(lia)) as Hs.
      pose proof (Ha (vcom !!! k) Hk) as Hak.
      destruct (existsb _ pre); rewrite Hak in Hs |- *; cbn; lia.
Qed.

(** The flags and the count computed by [louvainCommunityExistsW]. *)
Lemma louvainCommunityExistsW_spec (a0 : list nat) (x : Graph) (vcom : list nat) :
  labelsBelow x vcom (length a0) ->
  let '(a, C) := louvainCommunityExistsW a0 x vcom in
  length a = length a0 /\
  (forall c, c < length a0 -> a !!! c = if isNonempty x vcom c then 1 else 0) /\
  C = sum_list a.
Proof.
  intros Hlab. unfold louvainCommunityExistsW. cbv zeta.
  pose proof (louvainCommunityExistsW_fold vcom [] (vertexKeys x) (fillValueU a0 0) 0
                (length a0)) as H.
  destruct (foldl _ _ _) as [a C]. apply H.
  - apply repeat_length.
  - exact Hlab.
  - intros c Hc. unfold fillValueU. by rewrite lookup_total_repeat by lia.
  - unfold fillValueU. generalize (length a0). intros n. induction n as [|n IH]; simpl in *; lia.
Qed.

Lemma exclusiveScanAcc_spec acc (l : list nat) :
  length (exclusiveScanAcc acc l).1 = length l /\
  (forall i, i < length l -> (exclusiveScanAcc acc l).1 !!! i = acc + sum_list (take i l)) /\
  (exclusiveScanAcc acc l).2 = acc + sum_list l.
Proof.
  revert acc. induction l as [|v l IH]; intros acc; cbn.
  - split; [done|split; [intros i Hi; cbn in Hi; lia|lia]].
  - destruct (IH (acc + v)) as (L & Hi & Ht).
    destruct (exclusiveScanAcc (acc + v) l) as [r t]. cbn in *.
    split; [lia|split; [|lia]].
    intros [|i] Hlt; cbn; [lia|]. rewrite Hi by lia. lia.
Qed.

(** Prefix sums of a list. *)
Lemma sum_list_take_S (l : list nat) i :
  i < length l -> sum_list (take (Datatypes.S i) l) = sum_list (take i l) + l !!! i.
Proof.
  revert i. induction l as [|a l IH]; intros i Hi; cbn in Hi; [lia|].
  destruct i as [|i]; [cbn; rewrite take_0; cbn; lia|].
  change (take (S (S i)) (a :: l)) with (a :: take (S i) l).
  change (take (S i) (a :: l)) with (a :: take i l).
  change ((a :: l) !!! S i) with (l !!! i).
  change (sum_list (a :: take (S i) l)) with (a + sum_list (take (S i) l)).
  change (sum_list (a :: take i l)) with (a + sum_list (take i l)).
  rewrite IH by lia. lia.
Qed.

Lemma sum_list_take_mono (l : list nat) i j :
  i <= j -> sum_list (take i l) <= sum_list (take j l).
Proof.
  revert i j. induction l as [|a l IH]; intros i j Hij.
  - rewrite !take_nil. lia.
  - destruct i as [|i], j as [|j]; [cbn; lia|cbn; lia|lia|].
    change (take (S i) (a :: l)) with (a :: take i l).
    change (take (S j) (a :: l)) with (a :: take j l).
    change (sum_list (a :: take i l)) with (a + sum_list (take i l)).
    change (sum_list (a :: take j l)) with (a + sum_list (take j l)).
    specialize (IH i j ltac:(lia)). lia.
Qed.

Lemma sum_list_take_all (l : list nat) : sum_list (take (length l) l) = sum_list l.
Proof. by rewrite take_ge. Qed.

(** Every value below the total of a 0/1 list is the prefix sum at some
    index holding a 1. *)
Lemma prefix_sum_onto (f : list nat) n k :
  n <= length f -> (forall c, c < length f -> f !!! c <= 1) ->
  k < sum_list (take n f) ->
  exists c, c < n /\ f !!! c = 1 /\ sum_list (take c f) = k.
Proof.
  intros Hn H01. induction n as [|n IH]; intros Hk.
  - rewrite take_0 in Hk. cbn in Hk. lia.
  - rewrite sum_list_take_S in Hk by lia.
    destruct (Nat.lt_ge_cases k (sum_list (take n f))) as [Hlt|Hge].
    + destruct (IH ltac:(lia) Hlt) as (c & Hc & Hf & Hs). exists c. split; [lia|done].
    + pose proof (H01 n ltac:(lia)). exists n.
      split; [lia|split; [lia|lia]].
Qed.

Lemma map_lookup_total (f : nat -> nat) (l : list nat) i :
  i < length l -> map f l !!! i = f (l !!! i).
Proof.
  revert i. induction l as [|a l IH]; intros i Hi; cbn in Hi; [lia|].
  destruct i as [|i]; [done|]. cbn [map]. apply IH. lia.
Qed.

Lemma sum_list_take_strict (f : list nat) c1 c2 :
  c1 < c2 -> c2 <= length f -> f !!! c1 = 1 ->
  sum_list (take c1 f) < sum_list (take c2 f).
Proof.
  intros H12 H2 H1.
  pose proof (sum_list_take_S f c1 ltac:(lia)).
  pose proof (sum_list_take_mono f (Datatypes.S c1) c2 ltac:(lia)). lia.
Qed.

Lemma sum_list_take_count (f : list nat) (p : nat -> bool) i :
  i <= length f -> (forall c, c < length f -> f !!! c = if p c then 1 else 0) ->
  sum_list (take i f) = length (List.filter p (seq 0 i)).
Proof.
  intros Hi Hf. induction i as [|i IH].
  - by rewrite take_0.
  - rewrite sum_list_take_S by lia. rewrite seq_S, List.filter_app, length_app, <- IH by lia.
    rewrite Hf by lia. cbn. destruct (p i); cbn; lia.
Qed.

Lemma isNonempty_spec x vcom c :
  isNonempty x vcom c = true <-> exists u, In u (vertexKeys x) /\ vcom !!! u = c.
Proof.
  unfold isNonempty. rewrite existsb_exists. split.
  - intros (u & Hu & E). apply Nat.eqb_eq in E. eauto.
  - intros (u & Hu & E). exists u. split; [done|]. by apply Nat.eqb_eq.
Qed.

(** Claim C7: renumbering a community assignment through the exclusive prefix sum
    of the existence flags makes the labels of the vertices exactly the
    contiguous range [0, C), where [C] is the number of nonempty
    communities, and keeps two vertices together exactly when they were
    together before. *)
Theorem louvainRenumberCommunitiesW_contiguous (a0 : list nat) (x : Graph) (vcom : list nat) :
  labelsBelow x vcom (length a0) -> gspan x <= length vcom ->
  let '(cext, C) := louvainCommunityExistsW a0 x vcom in
  let '(vcom', _, C') := louvainRenumberCommunitiesW vcom cext x in
  C' = C /\
  C = length (List.filter (isNonempty x vcom) (seq 0 (length a0))) /\
  (forall u, In u (vertexKeys x) -> vcom' !!! u < C) /\
  (forall k, k < C -> exists u, In u (vertexKeys x) /\ vcom' !!! u = k) /\
  (forall u v, In u (vertexKeys x) -> In v (vertexKeys x) ->
     vcom' !!! u = vcom' !!! v <-> vcom !!! u = vcom !!! v).
Proof.
  intros Hlab Hlen.
  pose proof (louvainCommunityExistsW_spec a0 x vcom Hlab) as Hex.
  destruct (louvainCommunityExistsW a0 x vcom) as [f C].
  destruct Hex as (Hlf & Hf & HC).
  unfold louvainRenumberCommunitiesW, exclusiveScanW.
  pose proof (exclusiveScanAcc_spec 0 f) as (Hl' & Hs & Ht).
  destruct (exclusiveScanAcc 0 f) as [cext' C'] eqn:E. cbn in Hl', Hs, Ht.
  assert (Hnew : forall u, In u (vertexKeys x) ->
            louvainLookupCommunitiesU vcom cext' !!! u = sum_list (take (vcom !!! u) f)).
  { intros u Hu. unfold louvainLookupCommunitiesU.
    pose proof (vertexKeys_lt x u Hu).
    rewrite map_lookup_total by lia. rewrite Hs by (rewrite Hlf; apply Hlab, Hu). lia. }
  assert (Hone : forall u, In u (vertexKeys x) -> f !!! (vcom !!! u) = 1).
  { intros u Hu. rewrite Hf by (apply Hlab, Hu).
    assert (isNonempty x vcom (vcom !!! u) = true) as -> by (apply isNonempty_spec; eauto).
    done. }
  assert (H01 : forall c, c < length f -> f !!! c <= 1).
  { intros c Hc. rewrite Hf by lia. destruct (isNonempty _ _ _); lia. }
  assert (HCt : C = sum_list (take (length f) f)) by (rewrite take_ge by lia; done).
  split; [lia|]. split.
  { rewrite HCt, Hlf. apply sum_list_take_count; [lia|]. rewrite Hlf. exact Hf. }
  split; [|split].
  - intros u Hu. rewrite Hnew by done. rewrite HCt.
    pose proof (Hlab u Hu). apply sum_list_take_strict; [lia|lia|]. by apply Hone.
  - intros k Hk. rewrite HCt in Hk.
    destruct (prefix_sum_onto f (length f) k ltac:(lia) H01 Hk) as (c & Hc & Hfc & Hsc).
    rewrite Hf in Hfc by lia. destruct (isNonempty x vcom c) eqn:En; [|discriminate].
    apply isNonempty_spec in En as (u & Hu & Eu). exists u. split; [done|].
    rewrite Hnew by done. by rewrite Eu.
  - intros u v Hu Hv. rewrite !Hnew by done. split; [|intros ->; done].
    intros Heq. pose proof (Hlab u Hu). pose proof (Hlab v Hv).
    destruct (Nat.lt_total (vcom !!! u) (vcom !!! v)) as [Hlt|[Heq'|Hlt]]; [|done|].
    + pose proof (sum_list_take_strict f _ _ Hlt ltac:(lia) (Hone u Hu)). lia.
    + pose proof (sum_list_take_strict f _ _ Hlt ltac:(lia) (Hone v Hv)). lia.
Qed.

End Renumber.

(** ** C8: the community-vertices CSR *)

Section Buckets.

(** The vertices of [l] labelled [c], in the order of [l]. *)
Definition bucket (vcom l : list nat) (c : nat) : list nat :=
  List.filter (fun u => Nat.eqb (vcom !!! u) c) l.

Lemma bucket_app vcom l1 l2 c : bucket vcom (l1 ++ l2) c = bucket vcom l1 c ++ bucket vcom l2 c.
Proof. apply List.filter_app. Qed.

Lemma bucket_cons vcom u l c :
  bucket vcom (u :: l) c = (if Nat.eqb (vcom !!! u) c then [u] else []) ++ bucket vcom l c.
Proof. unfold bucket. cbn. by destruct (Nat.eqb _ _). Qed.

Lemma bucket_nil vcom l c : (forall u, In u l -> vcom !!! u <> c) -> bucket vcom l c = [].
Proof.
  induction l as [|u l IH]; intros H; [done|]. rewrite bucket_cons, IH by (intros; apply H; by right).
  assert (Nat.eqb (vcom !!! u) c = false) as -> by (apply Nat.eqb_neq, H; by left). done.
Qed.

Lemma sum_list_repeat0 n : sum_list (repeat 0 n) = 0.
Proof. induction n as [|n IH]; simpl in *; lia. Qed.

Lemma list_eq_lookup_total (l1 l2 : list nat) :
  length l1 = length l2 -> (forall i, i < length l1 -> l1 !!! i = l2 !!! i) -> l1 = l2.
Proof.
  intros HL H. apply (list_eq_same_length l1 l2 (length l1)); [lia|done|].
  intros i a b Hi Ha Hb. apply list_lookup_total_correct in Ha, Hb.
  rewrite <- Ha, <- Hb. by apply H.
Qed.

Lemma take_drop_lookup_total (l : list nat) o n j :
  j < n -> take n (drop o l) !!! j = l !!! (o + j).
Proof.
  intros Hj. rewrite !list_lookup_total_alt, lookup_take_lt by done.
  by rewrite lookup_drop.
Qed.

Lemma louvainCountCommunityVerticesW_fold vcom rest (a : list nat) n :
  length a = n -> (forall u, In u rest -> vcom !!! u < n) ->
  let a' := foldl (fun a u => let c := vcom !!! u in <[c := Datatypes.S (a !!! c)]> a) a rest in
  length a' = n /\ (forall c, c < n -> a' !!! c = a !!! c + length (bucket vcom rest c)) /\
  sum_list a' = sum_list a + length rest.
Proof.
  cbv zeta. revert a. induction rest as [|u rest IH]; intros a Ha Hr; cbn [foldl]; cbv beta.
  - split; [done|split; [intros; cbn; lia|cbn; lia]].
  - assert (Hc0 : vcom !!! u < n) by (apply Hr; left; done).
    destruct (IH (<[vcom !!! u := Datatypes.S (a !!! (vcom !!! u))]> a)) as (L & Hc & Hs).
    { by rewrite length_insert. }
    { intros; apply Hr; by right. }
    split; [done|split].
    + intros c Hc'. rewrite Hc by done. rewrite bucket_cons, length_app.
      destruct (decide (vcom !!! u = c)) as [<-|Hne].
      * rewrite list_lookup_total_insert_eq by lia. rewrite Nat.eqb_refl. cbn. lia.
      * rewrite list_lookup_total_insert_ne by done.
        apply Nat.eqb_neq in Hne. rewrite Hne. cbn. lia.
    + rewrite Hs. pose proof (sum_list_insert a (vcom !!! u) (Datatypes.S (a !!! (vcom !!! u)))
                                ltac:(lia)). cbn [length]. lia.
Qed.

Section Fill.

Variables (vcom K : list nat) (off : nat -> nat) (C : nat) (coff3 : list nat).
Hypothesis Hoff : forall c, c < C -> off (Datatypes.S c) = off c + length (bucket vcom K c).
Hypothesis Hco : forall c, c < C -> coff3 !!! c = off c.

Lemma off_mono c1 c2 : c1 <= c2 -> c2 <= C -> off c1 <= off c2.
Proof.
  intros H12 H2. induction c2 as [|c2 IH].
  - assert (c1 = 0) as -> by lia. lia.
  - destruct (decide (c1 = Datatypes.S c2)) as [->|Hne]; [lia|].
    rewrite Hoff by lia. specialize (IH ltac:(lia) ltac:(lia)). lia.
Qed.

Lemma louvainCommunityVerticesW_fill pre rest (cdeg cedg : list nat) :
  (forall c, c < C ->
     length (bucket vcom pre c) + length (bucket vcom rest c) = length (bucket vcom K c)) ->
  (forall u, In u rest -> vcom !!! u < C) ->
  off C <= length cedg -> C <= length cdeg ->
  (forall c, c < C -> cdeg !!! c = length (bucket vcom pre c)) ->
  (forall c j, c < C -> j < length (bucket vcom pre c) ->
     cedg !!! (off c + j) = bucket vcom pre c !!! j) ->
  let '(cdeg', cedg') :=
    foldl (fun '(cdeg, cedg) u => csrAddEdgeU cdeg cedg coff3 (vcom !!! u) u)
          (cdeg, cedg) rest in
  length cdeg' = length cdeg /\ length cedg' = length cedg /\
  (forall c, c < C -> cdeg' !!! c = length (bucket vcom (pre ++ rest) c)) /\
  (forall c j, c < C -> j < length (bucket vcom (pre ++ rest) c) ->
     cedg' !!! (off c + j) = bucket vcom (pre ++ rest) c !!! j).
Proof.
  revert pre cdeg cedg. induction rest as [|u rest IH]; intros pre cdeg cedg HK Hr Hl Hd Hdeg Hedg.
  - cbn [foldl]. rewrite app_nil_r. auto.
  - cbn [foldl]. unfold csrAddEdgeU at 2.
    set (c0 := vcom !!! u). assert (Hc0 : c0 < C) by (apply Hr; left; done).
    set (i := coff3 !!! c0 + cdeg !!! c0).
    assert (Hi : i = off c0 + length (bucket vcom pre c0)) by (unfold i; rewrite Hco, Hdeg; lia).
    assert (HKc0 : length (bucket vcom pre c0) < length (bucket vcom K c0)).
    { rewrite <- (HK c0 Hc0), bucket_cons, length_app. unfold c0. rewrite Nat.eqb_refl. cbn. lia. }
    assert (HiC : i < off C).
    { pose proof (Hoff c0 Hc0). pose proof (off_mono (Datatypes.S c0) C ltac:(lia) ltac:(lia)). lia. }
    assert (Hpre : forall c, bucket vcom (pre ++ [u]) c =
                      bucket vcom pre c ++ (if Nat.eqb c0 c then [u] else [])).
    { intros c. rewrite bucket_app. unfold bucket at 2. cbn. unfold c0. by destruct (Nat.eqb _ _). }
    specialize (IH (pre ++ [u]) (<[c0 := Datatypes.S (cdeg !!! c0)]> cdeg) (<[i := u]> cedg)).
    rewrite <- app_assoc in IH. cbn [app] in IH.
    destruct (foldl _ _ rest) as [cdeg' cedg'].
    destruct IH as (L1 & L2 & H3 & H4).
    + intros c Hc. rewrite Hpre, length_app, <- (HK c Hc), bucket_cons, length_app.
      fold c0. destruct (Nat.eqb c0 c); cbn; lia.
    + intros; apply Hr; by right.
    + rewrite length_insert. lia.
    + rewrite length_insert. lia.
    + intros c Hc. rewrite Hpre, length_app.
      destruct (decide (c0 = c)) as [<-|Hne].
      * rewrite list_lookup_total_insert_eq by lia. rewrite Nat.eqb_refl, Hdeg by done. cbn. lia.
      * rewrite list_lookup_total_insert_ne by done.
        apply Nat.eqb_neq in Hne as Hne'. rewrite Hne', Hdeg by done. cbn. lia.
    + intros c j Hc Hj. rewrite Hpre in Hj |- *. rewrite length_app in Hj.
      destruct (decide (c0 = c)) as [<-|Hne].
      * rewrite Nat.eqb_refl in Hj |- *. cbn [length] in Hj.
        destruct (decide (j = length (bucket vcom pre c0))) as [->|Hj'].
        -- rewrite <- Hi, list_lookup_total_insert_eq by lia.
           rewrite lookup_total_app_r by lia. by rewrite Nat.sub_diag.
        -- rewrite list_lookup_total_insert_ne by lia.
           rewrite lookup_total_app_l by lia. apply Hedg; lia.
      * apply Nat.eqb_neq in Hne as Hne'. rewrite Hne' in Hj |- *. rewrite app_nil_r. cbn [length] in Hj.
        assert (Hjk : j < length (bucket vcom K c)).
        { pose proof (HK c Hc). lia. }
        rewrite list_lookup_total_insert_ne.
        -- apply Hedg; lia.
        -- destruct (Nat.lt_total c c0) as [Hlt|[?|Hgt]]; [|lia|].
           ++ pose proof (Hoff c Hc). pose proof (off_mono (Datatypes.S c) c0 ltac:(lia) ltac:(lia)). lia.
           ++ pose proof (Hoff c0 Hc0). pose proof (off_mono (Datatypes.S c0) c ltac:(lia) ltac:(lia)). lia.
    + split; [rewrite length_insert in L1; done|split; [rewrite length_insert in L2; done|]].
      split; [exact H3|exact H4].
Qed.

End Fill.

(** Claim C8: with every label of a vertex below [C = |coff| - 1],
    [louvainCommunityVerticesW] sets [coff[C]] to the number of vertices,
    and the slice [cedg[coff[c] .. coff[c+1])] of each community [c < C]
    holds exactly the vertices labelled [c], each once (in increasing
    order), so every vertex lies in exactly the bucket of its label. *)
Theorem louvainCommunityVerticesW_partition (coff cdeg cedg : list nat) (x : Graph)
    (vcom : list nat) :
  1 <= length coff -> labelsBelow x vcom (length coff - 1) ->
  length coff - 1 <= length cdeg -> order x <= length cedg ->
  let C := length coff - 1 in
  let '(coff', cdeg', cedg') := louvainCommunityVerticesW coff cdeg cedg x vcom in
  coff' !!! C = order x /\
  (forall c, c < C ->
     csrSlice coff' cedg' c = List.filter (fun u => Nat.eqb (vcom !!! u) c) (vertexKeys x)) /\
  (forall c, c < C -> NoDup (csrSlice coff' cedg' c)) /\
  (forall c u, c < C ->
     In u (csrSlice coff' cedg' c) <-> In u (vertexKeys x) /\ vcom !!! u = c).
Proof.
  intros H1 Hlab Hdeg Hedg C. unfold louvainCommunityVerticesW. fold C.
  set (K := vertexKeys x).
  assert (HlabS : forall u, In u K -> vcom !!! u < length coff).
  { intros u Hu. pose proof (Hlab u Hu). fold C in H. lia. }
  pose proof (louvainCountCommunityVerticesW_fold vcom K (fillValueU coff 0) (length coff)
                ltac:(apply repeat_length) HlabS) as (L1 & Hc1 & Hs1).
  unfold louvainCountCommunityVerticesW. fold K.
  set (coff1 := foldl _ (fillValueU coff 0) K) in *.
  assert (Hcnt : forall c, c < length coff -> coff1 !!! c = length (bucket vcom K c)).
  { intros c Hc. rewrite Hc1 by done. unfold fillValueU. rewrite lookup_total_repeat by done. lia. }
  assert (HsumK : sum_list coff1 = order x).
  { rewrite Hs1. unfold fillValueU. rewrite sum_list_repeat0. done. }
  assert (HbC : bucket vcom K C = []).
  { apply bucket_nil. intros u Hu. pose proof (Hlab u Hu). fold C in H. lia. }
  unfold exclusiveScanW.
  pose proof (exclusiveScanAcc_spec 0 coff1) as (Ls & Hs & Ht).
  destruct (exclusiveScanAcc 0 coff1) as [coff2 tot]. cbn in Ls, Hs, Ht.
  set (off := fun c => sum_list (take c coff1)).
  assert (Hoff : forall c, c < C -> off (Datatypes.S c) = off c + length (bucket vcom K c)).
  { intros c Hc. unfold off. rewrite sum_list_take_S by lia. rewrite Hcnt by lia. lia. }
  assert (HoffC : off C = order x).
  { unfold off. rewrite <- HsumK.
    rewrite <- (take_ge coff1 (Datatypes.S C)) at 2 by lia.
    rewrite sum_list_take_S by lia. rewrite Hcnt by lia. rewrite HbC. cbn. lia. }
  set (coff3 := <[C := tot]> coff2).
  assert (Hco : forall c, c <= C -> coff3 !!! c = off c).
  { intros c Hc. unfold coff3. destruct (decide (c = C)) as [->|Hne].
    - rewrite list_lookup_total_insert_eq by lia. lia.
    - rewrite list_lookup_total_insert_ne by done. rewrite Hs by lia. unfold off. lia. }
  pose proof (louvainCommunityVerticesW_fill vcom K off C coff3 Hoff
                (fun c Hc => Hco c ltac:(lia)) [] K (fillValueU cdeg 0) cedg) as Hf.
  destruct (foldl (fun '(cdeg, cedg) u => csrAddEdgeU cdeg cedg coff3 (vcom !!! u) u)
             (fillValueU cdeg 0, cedg) K) as [cdeg' cedg'].
  destruct Hf as (Ld & Le & Hd' & He').
  - intros c Hc. cbn. lia.
  - intros u Hu. apply Hlab, Hu.
  - lia.
  - unfold fillValueU. rewrite repeat_length. lia.
  - intros c Hc. unfold fillValueU. rewrite lookup_total_repeat by lia. done.
  - intros c j Hc Hj. cbn in Hj. lia.
  - cbn [app] in Hd', He'.
    assert (Hslice : forall c, c < C -> csrSlice coff3 cedg' c = bucket vcom K c).
    { intros c Hc. unfold csrSlice. rewrite !Hco by lia. rewrite Hoff by done.
      replace (off c + length (bucket vcom K c) - off c) with (length (bucket vcom K c)) by lia.
      assert (off c + length (bucket vcom K c) <= length cedg').
      { rewrite <- Hoff by done. pose proof (off_mono vcom K off C Hoff (Datatypes.S c) C ltac:(lia) ltac:(lia)). lia. }
      apply list_eq_lookup_total.
      - rewrite length_take, length_drop. lia.
      - intros j Hj. rewrite length_take, length_drop in Hj.
        rewrite take_drop_lookup_total by lia. apply He'; lia. }
    split; [|split; [|split]].
    + rewrite Hco by lia. exact HoffC.
    + exact Hslice.
    + intros c Hc. rewrite Hslice by done. apply NoDup_ListNoDup, List.NoDup_filter.
      apply NoDup_ListNoDup, vertexKeys_NoDup.
    + intros c u Hc. rewrite Hslice by done. unfold bucket. rewrite List.filter_In.
      by rewrite Nat.eqb_eq.
Qed.

End Buckets.

(** ** C5: the aggregated graph *)

Section Aggregate.

(** The edges of [x] as triples [(u, v, w)]: [u] a vertex, [(v, w)] listed at [u]. *)
Definition entries (x : Graph) : list (nat * nat * Z) :=
  flat_map (fun u => map (fun '(v, w) => (u, v, w)) (edgesOf x u)) (vertexKeys x).

(** [x] lists every edge at both of its ends, with the same weight. *)
Definition symmetric (x : Graph) : Prop :=
  Permutation (entries x) (map (fun '(u, v, w) => (v, u, w)) (entries x)).

(** The total weight of the triples whose ends satisfy [p]. *)
Definition weightWhere (p : nat -> nat -> bool) (es : list (nat * nat * Z)) : Z :=
  sumZ (map (fun '(u, v, w) => if p u v then w else 0%Z) es).

(** The weight of the edges of [x] from community [c] to community [d]. *)
Definition interWeight (x : Graph) (vcom : list nat) (c d : nat) : Z :=
  weightWhere (fun u v => Nat.eqb (vcom !!! u) c && Nat.eqb (vcom !!! v) d) (entries x).

(** The weight of the edges [{u, v}], [u <> v], inside community [c], each
    counted once. *)
Definition internalWeight (x : Graph) (vcom : list nat) (c : nat) : Z :=
  weightWhere (fun u v => Nat.eqb (vcom !!! u) c && Nat.eqb (vcom !!! v) c && Nat.ltb u v)
    (entries x).

(** The weight of the self-loops of the vertices of community [c]. *)
Definition loopWeight (x : Graph) (vcom : list nat) (c : nat) : Z :=
  weightWhere (fun u v => Nat.eqb (vcom !!! u) c && Nat.eqb u v) (entries x).

(** The weight of the scanned pairs [(v, w)] whose [v] satisfies [q]. *)
Definition wIf (q : nat -> bool) (S : list (nat * Z)) : Z :=
  sumZ (map (fun '(v, w) => if q v then w else 0%Z) S).

(** The state of the scratch [vcs], [vcout] (of length [L]) after scanning
    the pairs [S] from a cleared scratch, all weights being positive. *)
Definition scanInv (L : nat) (vcom : list nat) (S : list (nat * Z))
    (vcs : list nat) (vcout : list Z) : Prop :=
  length vcout = L /\ NoDup vcs /\ (forall d, In d vcs -> d < L) /\
  (forall d, d < L -> vcout !!! d = wIf (fun v => Nat.eqb (vcom !!! v) d) S) /\
  (forall d, d < L -> (0 <= vcout !!! d)%Z) /\
  (forall d, d < L -> In d vcs <-> (0 < vcout !!! d)%Z) /\
  sumZ (map (fun d => vcout !!! d) vcs) = wIf (fun _ => true) S.

(** The out-edges [l] emitted for community [c] are those of the
    aggregated graph. *)
Definition emittedOK (x : Graph) (vcom : list nat) (c : nat) (l : list (nat * Z)) : Prop :=
  NoDup (map fst l) /\ (forall d w, In (d, w) l -> w = interWeight x vcom c d) /\
  (forall d, ~ In d (map fst l) -> interWeight x vcom c d = 0%Z) /\
  sumZ (map snd l) = weightWhere (fun u _ => Nat.eqb (vcom !!! u) c) (entries x).

Lemma sumZ_cons a l : sumZ (a :: l) = (a + sumZ l)%Z.
Proof. done. Qed.

Lemma sumZ_Permutation (l l' : list Z) : Permutation l l' -> sumZ l = sumZ l'.
Proof. unfold sumZ. induction 1; cbn; lia. Qed.

Lemma wIf_app q S1 S2 : wIf q (S1 ++ S2) = (wIf q S1 + wIf q S2)%Z.
Proof. unfold wIf. by rewrite map_app, sumZ_app. Qed.

Lemma wIf_nil q : wIf q [] = 0%Z.
Proof. done. Qed.

Lemma wIf_cons q v w S : wIf q ((v, w) :: S) = ((if q v then w else 0) + wIf q S)%Z.
Proof. done. Qed.

Lemma wIf_zero q S : (forall v w, In (v, w) S -> q v = false) -> wIf q S = 0%Z.
Proof.
  induction S as [|[v w] S IH]; intros H; [done|].
  rewrite wIf_cons, (H v w) by (left; done). rewrite IH; [done|]. intros; eapply H; by right.
Qed.

Lemma wIf_ext q q' S : (forall v, q v = q' v) -> wIf q S = wIf q' S.
Proof. intros H. unfold wIf. apply sumZ_map_ext. intros [v w] _. by rewrite H. Qed.

Lemma wIf_true_snd S : sumZ (map snd S) = wIf (fun _ => true) S.
Proof. unfold wIf. apply sumZ_map_ext. by intros [v w] _. Qed.

Lemma weightWhere_app p es1 es2 :
  weightWhere p (es1 ++ es2) = (weightWhere p es1 + weightWhere p es2)%Z.
Proof. unfold weightWhere. by rewrite map_app, sumZ_app. Qed.

Lemma weightWhere_cons p u v w es :
  weightWhere p ((u, v, w) :: es) = ((if p u v then w else 0) + weightWhere p es)%Z.
Proof. done. Qed.

Lemma weightWhere_ext p q es : (forall u v, p u v = q u v) -> weightWhere p es = weightWhere q es.
Proof. intros H. unfold weightWhere. apply sumZ_map_ext. intros [[u v] w] _. by rewrite H. Qed.

Lemma weightWhere_triple p u es :
  weightWhere p (map (fun '(v, w) => (u, v, w)) es) = wIf (p u) es.
Proof.
  unfold weightWhere, wIf. rewrite map_map. apply sumZ_map_ext. by intros [v w] _.
Qed.

Lemma weightWhere_swap p es :
  weightWhere p (map (fun '(u, v, w) => (v, u, w)) es) = weightWhere (fun u v => p v u) es.
Proof.
  unfold weightWhere. rewrite map_map. apply sumZ_map_ext. by intros [[u v] w] _.
Qed.

Lemma weightWhere_Permutation p es es' : Permutation es es' -> weightWhere p es = weightWhere p es'.
Proof. intros H. unfold weightWhere. apply sumZ_Permutation. by apply Permutation_map. Qed.

Lemma weightWhere_split3 (p p1 p2 p3 : nat -> nat -> bool) es :
  (forall u v, (if p u v then 1 else 0) =
               (if p1 u v then 1 else 0) + (if p2 u v then 1 else 0) + (if p3 u v then 1 else 0)) ->
  weightWhere p es = (weightWhere p1 es + weightWhere p2 es + weightWhere p3 es)%Z.
Proof.
  intros H. unfold weightWhere. rewrite <- !sumZ_map_add. apply sumZ_map_ext.
  intros [[u v] w] _. specialize (H u v).
  destruct (p u v), (p1 u v), (p2 u v), (p3 u v); cbn in H; lia.
Qed.

Lemma in_entries x u v w : In (u, v, w) (entries x) -> In u (vertexKeys x) /\ In (v, w) (edgesOf x u).
Proof.
  unfold entries. intros H. apply in_flat_map in H as (u' & Hu' & H).
  apply in_map_iff in H as ([v' w'] & E & H). injection E as -> -> ->. done.
Qed.

(** The pairs scanned for the bucket of [c], against the triples of [x]. *)
Lemma wIf_bucket x vcom (q : nat -> bool) c ks :
  wIf q (flat_map (edgesOf x) (bucket vcom ks c)) =
  weightWhere (fun u v => Nat.eqb (vcom !!! u) c && q v)
    (flat_map (fun u => map (fun '(v, w) => (u, v, w)) (edgesOf x u)) ks).
Proof.
  induction ks as [|u ks IH]; [done|].
  rewrite bucket_cons, flat_map_app. cbn [flat_map]. rewrite wIf_app, weightWhere_app, IH.
  rewrite weightWhere_triple. f_equal.
  destruct (Nat.eqb (vcom !!! u) c); cbn [flat_map].
  - rewrite app_nil_r. by apply wIf_ext.
  - rewrite wIf_nil. symmetry. by apply wIf_zero.
Qed.

Lemma interWeight_scanned x vcom c d :
  interWeight x vcom c d =
  wIf (fun v => Nat.eqb (vcom !!! v) d) (flat_map (edgesOf x) (bucket vcom (vertexKeys x) c)).
Proof. by rewrite wIf_bucket. Qed.

Lemma sourceWeight_scanned x vcom c :
  weightWhere (fun u _ => Nat.eqb (vcom !!! u) c) (entries x) =
  wIf (fun _ => true) (flat_map (edgesOf x) (bucket vcom (vertexKeys x) c)).
Proof.
  rewrite wIf_bucket. apply weightWhere_ext. intros u v. by rewrite andb_true_r.
Qed.

Lemma edgeWeight_entries x : edgeWeight x = weightWhere (fun _ _ => true) (entries x).
Proof.
  unfold edgeWeight, entries. induction (vertexKeys x) as [|u ks IH]; [done|].
  cbn [map flat_map]. rewrite sumZ_cons, weightWhere_app, IH, weightWhere_triple.
  f_equal; apply wIf_true_snd.
Qed.

(** Splitting the weight of [es] by the community of the source. *)
Lemma weightWhere_by_source (vcom : list nat) C es :
  (forall u v w, In (u, v, w) es -> vcom !!! u < C) ->
  sumZ (map (fun c => weightWhere (fun u _ => Nat.eqb (vcom !!! u) c) es) (seq 0 C)) =
  weightWhere (fun _ _ => true) es.
Proof.
  induction es as [|[[u v] w] es IH]; intros H.
  - unfold weightWhere. cbn [map]. apply sumZ_map_zero.
  - rewrite (sumZ_map_ext _ (fun c => ((if Nat.eqb (vcom !!! u) c then w else 0) +
               weightWhere (fun u _ => Nat.eqb (vcom !!! u) c) es)%Z))
      by (intros c _; apply (weightWhere_cons (fun u _ => Nat.eqb (vcom !!! u) c))).
    rewrite sumZ_map_add, IH by (intros; eapply H; by right).
    rewrite weightWhere_cons. f_equal.
    rewrite sumZ_seq_indicator. pose proof (H u v w ltac:(left; done)).
    destruct (Nat.leb_spec 0 (vcom !!! u)), (Nat.ltb_spec (vcom !!! u) (0 + C)); cbn; lia.
Qed.

(** The self-loop weight of [c] in a symmetric graph. *)
Lemma interWeight_self x vcom c :
  symmetric x ->
  interWeight x vcom c c = (2 * internalWeight x vcom c + loopWeight x vcom c)%Z.
Proof.
  intros Hsym. unfold interWeight, internalWeight, loopWeight.
  rewrite (weightWhere_split3 _
             (fun u v => Nat.eqb (vcom !!! u) c && Nat.eqb (vcom !!! v) c && Nat.ltb u v)
             (fun u v => Nat.eqb (vcom !!! v) c && Nat.eqb (vcom !!! u) c && Nat.ltb v u)
             (fun u v => Nat.eqb (vcom !!! u) c && Nat.eqb u v)).
  - rewrite <- (weightWhere_swap
                  (fun u v => Nat.eqb (vcom !!! u) c && Nat.eqb (vcom !!! v) c && Nat.ltb u v)).
    rewrite <- (weightWhere_Permutation _ _ _ Hsym). lia.
  - intros u v. destruct (Nat.eqb_spec u v) as [<-|Hne].
    + rewrite Nat.ltb_irrefl. destruct (Nat.eqb (vcom !!! u) c); cbn; lia.
    + destruct (Nat.eqb (vcom !!! u) c), (Nat.eqb (vcom !!! v) c),
               (Nat.ltb_spec u v), (Nat.ltb_spec v u); cbn; lia.
Qed.

Lemma sumZ_insert_notin (l : list Z) c z ks :
  ~ In c ks -> sumZ (map (fun d => <[c := z]> l !!! d) ks) = sumZ (map (fun d => l !!! d) ks).
Proof.
  intros H. apply sumZ_map_ext. intros d Hd.
  rewrite list_lookup_total_insert_ne; [done|]. intros ->. contradiction.
Qed.

Lemma sumZ_insert_in (l : list Z) c z ks :
  NoDup ks -> In c ks -> c < length l ->
  sumZ (map (fun d => <[c := z]> l !!! d) ks) = (sumZ (map (fun d => l !!! d) ks) + z - l !!! c)%Z.
Proof.
  induction ks as [|k ks IH]; intros Hnd Hin Hc; [contradiction|].
  apply NoDup_cons in Hnd as [Hk Hnd]. rewrite list_elem_of_In in Hk.
  cbn [map]. rewrite !sumZ_cons. destruct Hin as [->|Hin].
  - rewrite list_lookup_total_insert_eq by done. rewrite sumZ_insert_notin by done. lia.
  - rewrite list_lookup_total_insert_ne by (intros ->; contradiction). rewrite IH by done. lia.
Qed.

Lemma scanInv_step L vcom S vcs vcout u v w :
  scanInv L vcom S vcs vcout -> vcom !!! v < L -> (0 < w)%Z ->
  let '(vcs', vcout') := louvainScanCommunityW true vcs vcout u v w vcom in
  scanInv L vcom (S ++ [(v, w)]) vcs' vcout'.
Proof.
  intros (HL & Hnd & Hb & Hv & Hnn & Hin & Hsum) Hc Hw.
  unfold louvainScanCommunityW. cbn [negb andb]. set (c := vcom !!! v).
  assert (Hval : forall d, wIf (fun v' => Nat.eqb (vcom !!! v') d) (S ++ [(v, w)]) =
                   (wIf (fun v' => Nat.eqb (vcom !!! v') d) S + if Nat.eqb c d then w else 0)%Z).
  { intros d. rewrite wIf_app. unfold wIf at 2. cbn. fold c. destruct (Nat.eqb c d); lia. }
  assert (Htot : wIf (fun _ => true) (S ++ [(v, w)]) = (wIf (fun _ => true) S + w)%Z).
  { rewrite wIf_app. unfold wIf at 2. cbn. lia. }
  assert (Hnew : forall d, d < L -> <[c := (vcout !!! c + w)%Z]> vcout !!! d =
                   (vcout !!! d + if Nat.eqb c d then w else 0)%Z).
  { intros d Hd. destruct (Nat.eqb_spec c d) as [<-|Hne].
    - rewrite list_lookup_total_insert_eq by lia. lia.
    - rewrite list_lookup_total_insert_ne by done. lia. }
  destruct (Z.eqb_spec (vcout !!! c) 0) as [E|E].
  - assert (Hcn : ~ In c vcs) by (intros H; apply Hin in H; [lia|done]).
    split; [by rewrite length_insert|split; [|split; [|split; [|split; [|split]]]]].
    + apply NoDup_app. split; [done|split; [|apply NoDup_singleton]].
      intros d Hd Hd'. rewrite list_elem_of_In in Hd. apply list_elem_of_singleton in Hd'.
      subst. contradiction.
    + intros d Hd. apply in_app_iff in Hd as [Hd|[<-|[]]]; [by apply Hb|done].
    + intros d Hd. rewrite Hnew, Hval, Hv by done. done.
    + intros d Hd. rewrite Hnew by done. pose proof (Hnn d Hd). destruct (Nat.eqb c d); lia.
    + intros d Hd. rewrite Hnew, in_app_iff by done. cbn.
      destruct (Nat.eqb_spec c d) as [<-|Hne].
      * split; [lia|tauto].
      * rewrite (Hin d Hd). split; [intros [H|[H|[]]]; [lia|congruence]|intros H; left; lia].
    + rewrite map_app, sumZ_app, sumZ_insert_notin by done. cbn.
      rewrite list_lookup_total_insert_eq by lia. rewrite Htot, Hsum. lia.
  - assert (Hcv : In c vcs) by (apply Hin; [done|]; pose proof (Hnn c Hc); lia).
    split; [by rewrite length_insert|split; [done|split; [done|split; [|split; [|split]]]]].
    + intros d Hd. rewrite Hnew, Hval, Hv by done. done.
    + intros d Hd. rewrite Hnew by done. pose proof (Hnn d Hd). destruct (Nat.eqb c d); lia.
    + intros d Hd. rewrite Hnew, (Hin d Hd) by done.
      destruct (Nat.eqb_spec c d) as [<-|Hne]; [|lia].
      pose proof (Hnn c Hc). split; intros; lia.
    + rewrite sumZ_insert_in by (done || lia). rewrite Htot, Hsum. lia.
Qed.

Lemma scanInv_edges L vcom S vcs vcout u es :
  scanInv L vcom S vcs vcout ->
  (forall v w, In (v, w) es -> vcom !!! v < L /\ (0 < w)%Z) ->
  let '(vcs', vcout') :=
    foldl (fun '(vcs, vcout) '(v, w) => louvainScanCommunityW true vcs vcout u v w vcom)
          (vcs, vcout) es in
  scanInv L vcom (S ++ es) vcs' vcout'.
Proof.
  revert S vcs vcout. induction es as [|[v w] es IH]; intros S vcs vcout H Hes.
  - by rewrite app_nil_r.
  - cbn [foldl]. destruct (Hes v w ltac:(left; done)) as [Hv Hw].
    pose proof (scanInv_step L vcom S vcs vcout u v w H Hv Hw) as H1.
    destruct (louvainScanCommunityW true vcs vcout u v w vcom) as [vcs1 vcout1].
    specialize (IH (S ++ [(v, w)]) vcs1 vcout1 H1 ltac:(intros; apply Hes; by right)).
    by rewrite <- app_assoc in IH.
Qed.

Lemma scanInv_slice L vcom x S vcs vcout us :
  scanInv L vcom S vcs vcout ->
  (forall u v w, In u us -> In (v, w) (edgesOf x u) -> vcom !!! v < L /\ (0 < w)%Z) ->
  let '(vcs', vcout') :=
    foldl (fun '(vcs, vcout) u => louvainScanCommunitiesW true vcs vcout x u vcom)
          (vcs, vcout) us in
  scanInv L vcom (S ++ flat_map (edgesOf x) us) vcs' vcout'.
Proof.
  revert S vcs vcout. induction us as [|u us IH]; intros S vcs vcout H Hus.
  - by rewrite app_nil_r.
  - cbn [foldl flat_map]. unfold louvainScanCommunitiesW at 2.
    pose proof (scanInv_edges L vcom S vcs vcout u (edgesOf x u) H
                  ltac:(intros; eapply Hus; [left|]; done)) as H1.
    destruct (foldl _ (vcs, vcout) (edgesOf x u)) as [vcs1 vcout1].
    specialize (IH (S ++ edgesOf x u) vcs1 vcout1 H1 ltac:(intros; eapply Hus; [right|]; done)).
    by rewrite <- app_assoc in IH.
Qed.

Lemma louvainClearScanW_length vcs vcout : length (louvainClearScanW vcs vcout).2 = length vcout.
Proof.
  cbn. revert vcout. induction vcs as [|c vcs IH]; intros vcout; [done|].
  cbn [foldl]. rewrite IH. apply length_insert.
Qed.

Lemma scanInv_cleared L vcom vcs vcout :
  scratchInv vcs vcout -> length vcout = L ->
  scanInv L vcom [] (louvainClearScanW vcs vcout).1 (louvainClearScanW vcs vcout).2.
Proof.
  intros H HL. destruct (louvainClearScanW_zero vcs vcout H) as [E HF].
  pose proof (louvainClearScanW_length vcs vcout) as L1.
  destruct (louvainClearScanW vcs vcout) as [vcs1 vcout1]. cbn in E, HF, L1 |- *. subst vcs1.
  assert (Hz : forall d, d < L -> vcout1 !!! d = 0%Z).
  { intros d Hd. rewrite list_lookup_total_alt.
    destruct (lookup_lt_is_Some_2 vcout1 d ltac:(lia)) as [z Hz]. rewrite Hz.
    exact (proj1 (Forall_lookup _ _) HF d z Hz). }
  split; [lia|split; [constructor|split; [done|split; [|split; [|split]]]]].
  - intros d Hd. by rewrite Hz.
  - intros d Hd. rewrite Hz by done. lia.
  - intros d Hd. rewrite Hz by done. cbn. lia.
  - done.
Qed.

Lemma scanInv_scratch L vcom S vcs vcout : scanInv L vcom S vcs vcout -> scratchInv vcs vcout.
Proof.
  intros (HL & _ & _ & _ & Hnn & Hin & _) i z Hi Hz.
  assert (Hlt : i < L) by (rewrite <- HL; eapply lookup_lt_Some; eauto).
  apply list_lookup_total_correct in Hi. apply list_elem_of_In, Hin; [done|].
  pose proof (Hnn i Hlt). lia.
Qed.

Lemma fst_pairs (f : nat -> Z) (l : list nat) : map fst (map (fun d => (d, f d)) l) = l.
Proof. induction l as [|a l IH]; cbn; [done|]. by rewrite IH. Qed.

Lemma scanInv_emitted L vcom S vcs vcout :
  scanInv L vcom S vcs vcout -> (forall v w, In (v, w) S -> vcom !!! v < L) ->
  let l := map (fun d => (d, vcout !!! d)) vcs in
  NoDup (map fst l) /\
  (forall d w, In (d, w) l -> w = wIf (fun v => Nat.eqb (vcom !!! v) d) S) /\
  (forall d, ~ In d (map fst l) -> wIf (fun v => Nat.eqb (vcom !!! v) d) S = 0%Z) /\
  sumZ (map snd l) = wIf (fun _ => true) S.
Proof.
  intros (HL & Hnd & Hb & Hv & Hnn & Hin & Hsum) HS l. unfold l. rewrite fst_pairs.
  split; [done|split; [|split]].
  - intros d w Hd. apply in_map_iff in Hd as (d' & E & Hd'). injection E as <- <-.
    apply Hv, Hb, Hd'.
  - intros d Hd. destruct (decide (d < L)) as [Hlt|Hge].
    + rewrite <- Hv by done. pose proof (Hnn d Hlt).
      destruct (Z.eq_dec (vcout !!! d) 0%Z) as [E|E]; [done|].
      exfalso. apply Hd, Hin; [done|lia].
    + apply wIf_zero. intros v w Hvw. apply Nat.eqb_neq. pose proof (HS v w Hvw). lia.
  - rewrite map_map. cbn. exact Hsum.
Qed.

Section Body.

Variables (x : Graph) (vcom coff cedg : list nat).
Let C := length coff - 1.
Let L0 := C.
Hypothesis Hpos : forall u v w, In u (vertexKeys x) -> In (v, w) (edgesOf x u) ->
  In v (vertexKeys x) /\ (0 < w)%Z.
Hypothesis Hlab : labelsBelow x vcom C.
Hypothesis Hslice : forall c, c < C -> csrSlice coff cedg c = bucket vcom (vertexKeys x) c.

(** One step of [louvainAggregateEdgesW], for community [c]. *)
Lemma louvainAggregateEdgesW_step L c yadj vcs vcout :
  C <= L -> c < C -> scratchInv vcs vcout -> length vcout = L ->
  let '(yadj', vcs', vcout') :=
    (fun '(yadj, vcs, vcout) c =>
       let n := coff !!! Datatypes.S c - coff !!! c in
       if n =? 0 then (yadj ++ [[]], vcs, vcout) else
       let '(vcs1, vcout1) := louvainClearScanW vcs vcout in
       let '(vcs2, vcout2) :=
         foldl (fun '(vcs, vcout) u => louvainScanCommunitiesW true vcs vcout x u vcom)
               (vcs1, vcout1) (csrSlice coff cedg c) in
       (yadj ++ [map (fun d => (d, vcout2 !!! d)) vcs2], vcs2, vcout2)) (yadj, vcs, vcout) c in
  exists l, yadj' = yadj ++ [l] /\ emittedOK x vcom c l /\ scratchInv vcs' vcout' /\
            length vcout' = L.
Proof.
  intros HCL Hc Hscr HL. cbv beta iota zeta.
  assert (Hsc : forall v w, In (v, w) (flat_map (edgesOf x) (bucket vcom (vertexKeys x) c)) ->
                  vcom !!! v < L /\ (0 < w)%Z).
  { intros v w H. apply in_flat_map in H as (u & Hu & H).
    unfold bucket in Hu. apply List.filter_In in Hu as [Hu _].
    destruct (Hpos u v w Hu H) as [Hv Hw]. pose proof (Hlab v Hv). split; [lia|done]. }
  destruct (Nat.eqb_spec (coff !!! Datatypes.S c - coff !!! c) 0) as [E|E].
  - exists []. split; [done|split; [|done]].
    assert (Hb : bucket vcom (vertexKeys x) c = []).
    { rewrite <- Hslice by done. unfold csrSlice. by rewrite E. }
    split; [constructor|split; [intros ? ? []|split]].
    + intros d _. by rewrite interWeight_scanned, Hb.
    + by rewrite sourceWeight_scanned, Hb.
  - pose proof (scanInv_cleared L vcom vcs vcout Hscr HL) as H1.
    destruct (louvainClearScanW vcs vcout) as [vcs1 vcout1].
    pose proof (scanInv_slice L vcom x [] vcs1 vcout1 (csrSlice coff cedg c) H1) as H2.
    rewrite Hslice in H2 |- * by done.
    specialize (H2 ltac:(intros u v w Hu Hvw; apply Hsc, in_flat_map; eauto)).
    destruct (foldl _ (vcs1, vcout1) _) as [vcs2 vcout2].
    cbn [app] in H2.
    exists (map (fun d => (d, vcout2 !!! d)) vcs2). split; [done|split; [|split]].
    + destruct (scanInv_emitted L vcom _ vcs2 vcout2 H2 ltac:(intros v w H; apply (Hsc v w H)))
        as (N1 & N2 & N3 & N4).
      split; [exact N1|split; [|split]].
      * intros d w H. rewrite interWeight_scanned. by apply N2.
      * intros d H. rewrite interWeight_scanned. by apply N3.
      * rewrite sourceWeight_scanned. exact N4.
    + by apply (scanInv_scratch L vcom _ _ _ H2).
    + by destruct H2.
Qed.

Lemma louvainAggregateEdgesW_fold L cs yadj vcs vcout :
  C <= L -> (forall c, In c cs -> c < C) -> scratchInv vcs vcout -> length vcout = L ->
  let '(yadj', vcs', vcout') :=
    foldl (fun '(yadj, vcs, vcout) c =>
             let n := coff !!! Datatypes.S c - coff !!! c in
             if n =? 0 then (yadj ++ [[]], vcs, vcout) else
             let '(vcs1, vcout1) := louvainClearScanW vcs vcout in
             let '(vcs2, vcout2) :=
               foldl (fun '(vcs, vcout) u => louvainScanCommunitiesW true vcs vcout x u vcom)
                     (vcs1, vcout1) (csrSlice coff cedg c) in
             (yadj ++ [map (fun d => (d, vcout2 !!! d)) vcs2], vcs2, vcout2))
          (yadj, vcs, vcout) cs in
  exists ys, yadj' = yadj ++ ys /\ length ys = length cs /\
    (forall i, i < length cs -> emittedOK x vcom (cs !!! i) (ys !!! i)).
Proof.
  revert yadj vcs vcout. induction cs as [|c cs IH]; intros yadj vcs vcout HCL Hcs Hscr HL.
  - cbn [foldl]. exists []. rewrite app_nil_r. split; [done|split; [done|intros i Hi; cbn in Hi; lia]].
  - cbn [foldl].
    pose proof (louvainAggregateEdgesW_step L c yadj vcs vcout HCL
                  ltac:(apply Hcs; left; done) Hscr HL) as Hs.
    cbn beta iota zeta in Hs.
    destruct (if coff !!! Datatypes.S c - coff !!! c =? 0 then _ else _) as [[yadj1 vcs1] vcout1].
    destruct Hs as (l & -> & Hl & Hscr1 & HL1).
    specialize (IH (yadj ++ [l]) vcs1 vcout1 HCL ltac:(intros; apply Hcs; by right) Hscr1 HL1).
    destruct (foldl _ _ cs) as [[yadj2 vcs2] vcout2].
    destruct IH as (ys & -> & Hlen & Hys).
    exists (l :: ys). rewrite <- app_assoc. split; [done|split; [cbn; lia|]].
    intros [|i] Hi; [done|]. apply Hys. cbn in Hi. lia.
Qed.

End Body.

Lemma filter_all_true (f : nat -> bool) l : (forall u, In u l -> f u = true) -> List.filter f l = l.
Proof.
  induction l as [|u l IH]; intros H; [done|]. cbn. rewrite H by (left; done).
  rewrite IH; [done|]. intros; apply H; by right.
Qed.

(** A graph with a zero-weight edge: vertices [0] and [1] joined by an
    edge of weight 0, and a self-loop of weight 2 at [1]. *)
Definition zeroEdge : Graph := mkGraph 2 [true; true] [[(1, 0%Z)]; [(0, 0%Z); (1, 2%Z)]].

(** Claim C5 (counterexample): on [zeroEdge] with both vertices in
    community 0, the scan lists community 0 three times in [vcs] (each
    time [vcout[0]] is still 0), so [y] has the self-loop [(0, 2)] three
    times: its total weight is 6, not the 2 of [zeroEdge], although the
    self-loop weight of community 0 in [zeroEdge] is 2. *)
Theorem louvainAggregateW_zero_weight :
  symmetric zeroEdge /\
  let '(coff, _, cedg) :=
    louvainCommunityVerticesW (repeat 0 2) (repeat 0 1) (repeat 0 2) zeroEdge [0; 0] in
  let '(y, _, _) := louvainAggregateW [] (repeat 0%Z 2) zeroEdge [0; 0] coff cedg in
  gadj y = [[(0, 2%Z); (0, 2%Z); (0, 2%Z)]] /\ edgeWeight y = 6%Z /\
  edgeWeight zeroEdge = 2%Z /\ interWeight zeroEdge [0; 0] 0 0 = 2%Z.
Proof.
  split.
  - unfold symmetric. vm_compute. apply perm_swap.
  - vm_compute. split; [reflexivity|split; [reflexivity|split; reflexivity]].
Qed.

(** Claim C5 (amended: all edge weights strictly positive): for a
    symmetric graph [x] whose edges all have a positive weight and lead to
    vertices, a labelling [vcom] of its vertices below [C = |coff| - 1]
    and the community CSR [coff], [cedg] (the slice of [c] holds the
    vertices labelled [c]), the graph [y] built by [louvainAggregateW] has
    the vertices [0 .. C-1]; each community [c] has at most one edge to
    each community [d], of weight the total weight of the edges of [x]
    from [c] to [d], and none when that total is 0; the self-loop weight
    of [c] is twice its internal weight plus its self-loops; and [y] has
    the total edge weight of [x]. *)
Theorem louvainAggregateW_positive_weights (vcs : list nat) (vcout : list Z) (x : Graph)
    (vcom coff cedg : list nat) :
  symmetric x ->
  (forall u v w, In u (vertexKeys x) -> In (v, w) (edgesOf x u) ->
     In v (vertexKeys x) /\ (0 < w)%Z) ->
  labelsBelow x vcom (length coff - 1) ->
  length coff - 1 <= length vcout ->
  scratchInv vcs vcout ->
  (forall c, c < length coff - 1 -> csrSlice coff cedg c = bucket vcom (vertexKeys x) c) ->
  let C := length coff - 1 in
  let '(y, _, _) := louvainAggregateW vcs vcout x vcom coff cedg in
  vertexKeys y = seq 0 C /\
  (forall c, c < C -> NoDup (map fst (edgesOf y c))) /\
  (forall c d w, c < C -> In (d, w) (edgesOf y c) -> w = interWeight x vcom c d) /\
  (forall c d, c < C -> ~ In d (map fst (edgesOf y c)) -> interWeight x vcom c d = 0%Z) /\
  (forall c, c < C ->
     interWeight x vcom c c = (2 * internalWeight x vcom c + loopWeight x vcom c)%Z) /\
  edgeWeight y = edgeWeight x.
Proof.
  intros Hsym Hpos Hlab HL Hscr Hslice C.
  unfold louvainAggregateW, louvainAggregateEdgesW. fold C.
  pose proof (louvainAggregateEdgesW_fold x vcom coff cedg Hpos Hlab Hslice (length vcout)
                (seq 0 C) [] vcs vcout HL
                ltac:(intros c Hc; apply in_seq in Hc; unfold C; lia) Hscr eq_refl) as Hf.
  destruct (foldl _ ([], vcs, vcout) (seq 0 C)) as [[yadj vcs'] vcout'].
  destruct Hf as (ys & -> & Hlen & Hys). cbn [app] in *. rewrite length_seq in Hlen.
  assert (HK : vertexKeys (mkGraph C (repeat true C) ys) = seq 0 C).
  { unfold vertexKeys, hasVertex. cbn [gspan ghas]. apply filter_all_true.
    intros u Hu. apply in_seq in Hu. apply lookup_total_repeat. lia. }
  assert (Hok : forall c, c < C -> emittedOK x vcom c (edgesOf (mkGraph C (repeat true C) ys) c)).
  { intros c Hc. unfold edgesOf. cbn [gadj].
    specialize (Hys c ltac:(rewrite length_seq; lia)).
    by rewrite lookup_total_seq_lt in Hys by done. }
  split; [exact HK|split; [|split; [|split; [|split]]]].
  - intros c Hc. apply (Hok c Hc).
  - intros c d w Hc. apply (Hok c Hc).
  - intros c d Hc. apply (Hok c Hc).
  - intros c _. by apply interWeight_self.
  - rewrite (edgeWeight_entries x). unfold edgeWeight. rewrite HK.
    rewrite (sumZ_map_ext _ (fun c => weightWhere (fun u _ => Nat.eqb (vcom !!! u) c) (entries x))).
    + apply weightWhere_by_source. intros u v w Hin.
      apply in_entries in Hin as [Hu _]. apply Hlab, Hu.
    + intros c Hc. apply in_seq in Hc. apply (Hok c ltac:(lia)).
Qed.

End Aggregate.

(** ** Further properties of the engine *)

Section Extras.

(** *** Weight tables *)

Lemma louvainVertexWeightsW_inner (u : nat) (es : list (nat * Z)) (vtot : list Z) :
  let r := foldl (fun vtot '(v, w) => <[u := (vtot !!! u + w)%Z]> vtot) vtot es in
  length r = length vtot /\ (forall i, i <> u -> r !!! i = vtot !!! i) /\
  (u < length vtot -> r !!! u = (vtot !!! u + sumZ (map snd es))%Z).
Proof.
  cbv zeta. revert vtot. induction es as [|[v w] es IH]; intros vtot; cbn [foldl].
  - split; [done|split; [done|]]. intros _. unfold sumZ. cbn. lia.
  - destruct (IH (<[u:=(vtot !!! u + w)%Z]> vtot)) as (L & Hne & Heq).
    rewrite length_insert in L. split; [done|split].
    + intros i Hi. rewrite Hne by done. by rewrite list_lookup_total_insert_ne by congruence.
    + intros Hu. rewrite Heq by (rewrite length_insert; done).
      rewrite list_lookup_total_insert_eq by done. cbn [map snd]. rewrite sumZ_cons. lia.
Qed.

Lemma louvainVertexWeightsW_fold ks (vtot : list Z) x :
  NoDup ks -> (forall u, In u ks -> u < length vtot) ->
  let r := foldl (fun vtot u =>
                    foldl (fun vtot '(v, w) => <[u := (vtot !!! u + w)%Z]> vtot)
                          vtot (edgesOf x u)) vtot ks in
  length r = length vtot /\
  (forall u, In u ks -> r !!! u = (vtot !!! u + sumZ (map snd (edgesOf x u)))%Z) /\
  (forall i, ~ In i ks -> r !!! i = vtot !!! i).
Proof.
  cbv zeta. revert vtot. induction ks as [|k ks IH]; intros vtot Hnd Hb; cbn [foldl].
  - split; [done|split; [intros u []|done]].
  - apply NoDup_cons in Hnd as [Hk Hnd]. rewrite list_elem_of_In in Hk.
    destruct (louvainVertexWeightsW_inner k (edgesOf x k) vtot) as (L1 & Hne1 & Heq1).
    destruct (IH (foldl (fun vtot '(v, w) => <[k := (vtot !!! k + w)%Z]> vtot)
                        vtot (edgesOf x k)) Hnd) as (L & Hin & Hout).
    { intros u Hu. rewrite L1. apply Hb. by right. }
    split; [lia|split].
    + intros u [<-|Hu].
      * rewrite Hout by done. apply Heq1, Hb. by left.
      * rewrite Hin by done. rewrite Hne1 by (intros ->; contradiction). done.
    + intros i Hi. rewrite Hout by (intros H; apply Hi; by right).
      apply Hne1. intros ->. apply Hi. by left.
Qed.

Lemma sumZ_map_filter {A} (p : A -> bool) (g : A -> Z) (l : list A) :
  sumZ (map g (List.filter p l)) = sumZ (map (fun a => if p a then g a else 0%Z) l).
Proof.
  induction l as [|a l IH]; [done|]. cbn [List.filter map]. destruct (p a); cbn [map]; rewrite ?sumZ_cons, IH; lia.
Qed.

Lemma louvainCommunityWeightsW_fold ks vcom (vtot ctot : list Z) :
  (forall u, In u ks -> vcom !!! u < length ctot) ->
  let r := foldl (fun ctot u => let c := vcom !!! u in <[c := (ctot !!! c + vtot !!! u)%Z]> ctot)
                 ctot ks in
  length r = length ctot /\
  (forall c, c < length ctot -> r !!! c = (ctot !!! c + commWeight ks vcom vtot c)%Z).
Proof.
  cbv zeta. revert ctot. induction ks as [|k ks IH]; intros ctot Hb; cbn [foldl].
  - split; [done|]. intros c _. unfold commWeight, sumZ. cbn. lia.
  - pose proof (Hb k (or_introl eq_refl)) as Hk.
    destruct (IH (<[vcom !!! k := (ctot !!! (vcom !!! k) + vtot !!! k)%Z]> ctot)) as (L & Hc).
    { intros u Hu. rewrite length_insert. apply Hb. by right. }
    rewrite length_insert in L. split; [done|].
    intros c Hlt. rewrite Hc by (rewrite length_insert; done). rewrite commWeight_cons.
    destruct (Nat.eqb_spec (vcom !!! k) c) as [<-|Hne].
    + rewrite list_lookup_total_insert_eq by done. lia.
    + rewrite list_lookup_total_insert_ne by done. lia.
Qed.

Lemma list_eq_lookup_total_Z (l1 l2 : list Z) :
  length l1 = length l2 -> (forall i, i < length l1 -> l1 !!! i = l2 !!! i) -> l1 = l2.
Proof.
  intros HL H. apply (list_eq_same_length l1 l2 (length l1)); [lia|done|].
  intros i a b Hi Ha Hb. apply list_lookup_total_correct in Ha, Hb.
  rewrite <- Ha, <- Hb. by apply H.
Qed.

Lemma foldl_ext_in {A B} (f g : A -> B -> A) (l : list B) (a : A) :
  (forall b u, In u l -> f b u = g b u) -> foldl f a l = foldl g a l.
Proof.
  revert a. induction l as [|u l IH]; intros a H; [done|]. cbn [foldl].
  rewrite H by (left; done). apply IH. intros b v Hv. apply H. by right.
Qed.

Lemma louvainInitializeFromW_split ks (vcom : list nat) (ctot vtot : list Z) (q : list nat) :
  (forall u, In u ks -> u < length vcom) ->
  let '(vcom', ctot') :=
    foldl (fun '(vcom, ctot) u =>
             let c := q !!! u in
             (<[u := c]> vcom, <[c := (ctot !!! c + vtot !!! u)%Z]> ctot))
          (vcom, ctot) ks in
  (forall u, In u ks -> vcom' !!! u = q !!! u) /\
  (forall i, ~ In i ks -> vcom' !!! i = vcom !!! i) /\
  ctot' = foldl (fun ctot u => let c := q !!! u in <[c := (ctot !!! c + vtot !!! u)%Z]> ctot)
                ctot ks.
Proof.
  revert vcom ctot. induction ks as [|k ks IH]; intros vcom ctot Hb; cbn [foldl].
  - split; [intros u []|done].
  - specialize (IH (<[k := q !!! k]> vcom) (<[q !!! k := (ctot !!! (q !!! k) + vtot !!! k)%Z]> ctot)
                   ltac:(intros u Hu; rewrite length_insert; apply Hb; by right)).
    destruct (foldl _ _ ks) as [vcom' ctot'].
    destruct IH as (Hin & Hout & Hc). split; [|split; [|done]].
    + intros u [<-|Hu]; [|by apply Hin].
      destruct (in_dec Nat.eq_dec k ks) as [Hk|Hk]; [by apply Hin|].
      rewrite Hout by done. apply list_lookup_total_insert_eq, Hb. by left.
    + intros i Hi. rewrite Hout by (intros H; apply Hi; by right).
      apply list_lookup_total_insert_ne. intros ->. apply Hi. by left.
Qed.

Lemma louvainInitializeW_length (vcom : list nat) (ctot vtot : list Z) x :
  length (louvainInitializeW vcom ctot x vtot).1 = length vcom.
Proof.
  unfold louvainInitializeW. generalize (vertexKeys x). intros ks.
  revert vcom ctot. induction ks as [|k ks IH]; intros vcom ctot; [done|].
  cbn [foldl]. rewrite IH. apply length_insert.
Qed.

Lemma louvainInitializeFromW_length (vcom : list nat) (ctot vtot : list Z) x q :
  length (louvainInitializeFromW vcom ctot x vtot q).1 = length vcom.
Proof.
  unfold louvainInitializeFromW. generalize (vertexKeys x). intros ks.
  revert vcom ctot. induction ks as [|k ks IH]; intros vcom ctot; [done|].
  cbn [foldl]. rewrite IH. apply length_insert.
Qed.

(** [louvainVertexWeightsW] adds to [vtot[u]] the weights of the edges of
    each vertex [u] of [x] and leaves the other entries alone (the table
    covers the span of [x]). *)
Theorem louvainVertexWeightsW_adds (vtot : list Z) (x : Graph) :
  gspan x <= length vtot ->
  let vtot' := louvainVertexWeightsW vtot x in
  length vtot' = length vtot /\
  (forall u, In u (vertexKeys x) ->
     vtot' !!! u = (vtot !!! u + sumZ (map snd (edgesOf x u)))%Z) /\
  (forall i, ~ In i (vertexKeys x) -> vtot' !!! i = vtot !!! i).
Proof.
  intros H. unfold louvainVertexWeightsW. apply louvainVertexWeightsW_fold.
  - apply vertexKeys_NoDup.
  - intros u Hu. pose proof (vertexKeys_lt x u Hu). lia.
Qed.

(** From the zero-filled table of the drivers, the vertex weights sum to
    the total edge weight of [x], [2M]. *)
Theorem louvainVertexWeightsW_total (x : Graph) :
  sumZ (louvainVertexWeightsW (repeat 0%Z (gspan x)) x) = edgeWeight x.
Proof.
  unfold louvainVertexWeightsW.
  destruct (louvainVertexWeightsW_fold (vertexKeys x) (repeat 0%Z (gspan x)) x
              (vertexKeys_NoDup x)) as (L & Hin & Hout).
  { intros u Hu. rewrite repeat_length. by apply vertexKeys_lt. }
  rewrite (sumZ_indices (foldl _ _ _)), L, repeat_length.
  rewrite (sumZ_map_ext _ (fun i => if hasVertex x i then sumZ (map snd (edgesOf x i)) else 0%Z)).
  - unfold edgeWeight, vertexKeys. by rewrite sumZ_map_filter.
  - intros i Hi. apply in_seq in Hi. destruct (hasVertex x i) eqn:E.
    + rewrite Hin; [rewrite lookup_total_repeat by lia; lia|].
      unfold vertexKeys. apply List.filter_In. split; [apply in_seq; lia|done].
    + rewrite Hout; [apply lookup_total_repeat; lia|].
      intros Hk. unfold vertexKeys in Hk. apply List.filter_In in Hk as [_ Hk]. congruence.
Qed.

(** [louvainCommunityWeightsW] adds to [ctot[c]] the weights [vtot[u]] of
    the vertices [u] with [vcom[u] = c]; the total grows by the sum of the
    vertex weights.  From a zero-filled table this is [ctot[c] = Σ_{u:
    vcom[u]=c} vtot[u]]. *)
Theorem louvainCommunityWeightsW_adds (ctot : list Z) (x : Graph) (vcom : list nat)
    (vtot : list Z) :
  labelsBelow x vcom (length ctot) ->
  let ctot' := louvainCommunityWeightsW ctot x vcom vtot in
  length ctot' = length ctot /\
  (forall c, c < length ctot ->
     ctot' !!! c = (ctot !!! c + commWeight (vertexKeys x) vcom vtot c)%Z) /\
  sumZ ctot' = (sumZ ctot + sumZ (map (fun u => vtot !!! u) (vertexKeys x)))%Z.
Proof.
  intros Hlab. cbv zeta. unfold louvainCommunityWeightsW.
  destruct (louvainCommunityWeightsW_fold (vertexKeys x) vcom vtot ctot Hlab) as (L & Hc). cbv zeta in L, Hc.
  split; [done|split; [done|]].
  rewrite (sumZ_indices (foldl _ _ _)), (sumZ_indices ctot), L.
  rewrite (sumZ_map_ext _ (fun c => ctot !!! c + commWeight (vertexKeys x) vcom vtot c)%Z)
    by (intros c Hc'; apply in_seq in Hc'; apply Hc; lia).
  rewrite sumZ_map_add, sumZ_commWeight by exact Hlab. done.
Qed.

(** Both initializations of the drivers (singletons, or from a given
    partition [q]), run on zero-filled tables, leave in [ctot] exactly
    what [louvainCommunityWeightsW] computes from zero for the [vcom] they
    produce. *)
Theorem louvainInitialize_community_weights (x : Graph) (vtot : list Z)
    (q : option (list nat)) :
  let S := gspan x in
  let '(vcom, ctot) :=
    match q with
    | Some qv => louvainInitializeFromW (repeat 0 S) (repeat 0%Z S) x vtot qv
    | None => louvainInitializeW (repeat 0 S) (repeat 0%Z S) x vtot
    end in
  ctot = louvainCommunityWeightsW (repeat 0%Z S) x vcom vtot.
Proof.
  intros S. destruct q as [qv|].
  - unfold louvainInitializeFromW.
    pose proof (louvainInitializeFromW_split (vertexKeys x) (repeat 0 S) (repeat 0%Z S) vtot qv)
      as H.
    destruct (foldl _ _ _) as [vcom ctot].
    destruct H as (Hin & _ & ->).
    { intros u Hu. rewrite repeat_length. by apply vertexKeys_lt. }
    unfold louvainCommunityWeightsW. apply foldl_ext_in.
    intros b u Hu. by rewrite Hin.
  - pose proof (louvainInitializeW_fold (vertexKeys x) (repeat 0 S) (repeat 0%Z S) vtot) as H.
    unfold louvainInitializeW. destruct (foldl _ _ _) as [vcom ctot].
    destruct H as (L1 & L2 & Hin & Hout).
    { intros u Hu. rewrite !repeat_length. split; by apply vertexKeys_lt. }
    rewrite repeat_length in L1, L2.
    assert (Hlab : forall u, In u (vertexKeys x) -> vcom !!! u < length (repeat 0%Z S)).
    { intros u Hu. rewrite repeat_length, (proj1 (Hin u Hu)). by apply vertexKeys_lt. }
    destruct (louvainCommunityWeightsW_fold (vertexKeys x) vcom vtot (repeat 0%Z S) Hlab)
      as (L & Hc).
    unfold louvainCommunityWeightsW. cbv zeta in L, Hc |- *.
    apply list_eq_lookup_total_Z; [rewrite L, repeat_length; done|].
    intros c Hlt. rewrite L2 in Hlt. rewrite Hc by (rewrite repeat_length; done).
    rewrite lookup_total_repeat by done.
    rewrite (commWeight_self _ _ _ _ (vertexKeys_NoDup x)) by (intros u Hu; apply (Hin u Hu)).
    destruct (in_dec Nat.eq_dec c (vertexKeys x)) as [Hc'|Hc'].
    + rewrite (proj2 (Hin c Hc')). lia.
    + rewrite (proj2 (Hout c Hc')). rewrite lookup_total_repeat by done. lia.
Qed.

(** *** Moves of one vertex *)

(** Moving a vertex to the community it is already in changes nothing,
    whatever the sizes of the tables. *)
Theorem louvainChangeCommunityW_same (vcom : list nat) (ctot vtot : list Z) (x : Graph) u :
  louvainChangeCommunityW vcom ctot x u (vcom !!! u) vtot = (vcom, ctot).
Proof.
  unfold louvainChangeCommunityW. f_equal.
  - destruct (decide (u < length vcom)) as [Hu|Hu].
    + apply list_insert_id'. intros _. rewrite list_lookup_total_alt.
      destruct (lookup_lt_is_Some_2 vcom u Hu) as [c Hc]. by rewrite Hc.
    + apply list_insert_ge. lia.
  - set (d := vcom !!! u). destruct (decide (d < length ctot)) as [Hd|Hd].
    + rewrite list_lookup_total_insert_eq by done. rewrite list_insert_insert_eq.
      replace (ctot !!! d - vtot !!! u + vtot !!! u)%Z with (ctot !!! d) by lia.
      apply list_insert_id'. intros _. rewrite list_lookup_total_alt.
      destruct (lookup_lt_is_Some_2 ctot d Hd) as [c Hc]. by rewrite Hc.
    + rewrite !list_insert_ge; [done|lia|rewrite length_insert; lia].
Qed.

(** Two successive moves of the same vertex [u], to [c] and then to [c'],
    amount to the single move to [c'] (communities and [u] within the
    tables). *)
Theorem louvainChangeCommunityW_twice (vcom : list nat) (ctot vtot : list Z) (x : Graph)
    u c c' :
  u < length vcom -> vcom !!! u < length ctot -> c < length ctot -> c' < length ctot ->
  let '(vcom1, ctot1) := louvainChangeCommunityW vcom ctot x u c vtot in
  louvainChangeCommunityW vcom1 ctot1 x u c' vtot = louvainChangeCommunityW vcom ctot x u c' vtot.
Proof.
  intros Hu Hd Hc Hc'. unfold louvainChangeCommunityW. cbv zeta.
  rewrite list_lookup_total_insert_eq by done. rewrite list_insert_insert_eq. f_equal.
  set (d := vcom !!! u). set (v := vtot !!! u).
  apply list_eq_lookup_total_Z; [rewrite !length_insert; done|].
  intros i Hi. rewrite !length_insert in Hi.
  rewrite !list_lookup_total_insert.
  rewrite !length_insert.
  repeat case_decide; destruct_and?; subst; lia.
Qed.

(** *** Membership composition *)

(** Looking the membership [a] up through [v1] and then through [v2] is
    looking it up through the composed table [v2 ∘ v1], as long as the
    entries of [a] index [v1]. *)
Theorem louvainLookupCommunitiesU_compose (a v1 v2 : list nat) :
  (forall i, In i a -> i < length v1) ->
  louvainLookupCommunitiesU (louvainLookupCommunitiesU a v1) v2 =
  louvainLookupCommunitiesU a (louvainLookupCommunitiesU v1 v2).
Proof.
  intros H. unfold louvainLookupCommunitiesU. rewrite map_map.
  apply map_ext_in. intros i Hi. symmetry. apply map_lookup_total, H, Hi.
Qed.

(** *** Scanning, choosing and moving *)

Lemma wIf_filter_fst (p q : nat -> bool) (S : list (nat * Z)) :
  wIf q (List.filter (fun e => p (fst e)) S) = wIf (fun v => p v && q v) S.
Proof.
  induction S as [|[v w] S IH]; [done|]. cbn [List.filter fst].
  destruct (p v) eqn:E.
  - rewrite !wIf_cons, IH. cbv beta. rewrite E. cbn [andb]. lia.
  - rewrite IH, (wIf_cons (fun v => p v && q v)). cbv beta. rewrite E. cbn [andb]. lia.
Qed.

(** Scanning without self-loops ([SELF = false]) from a scanned state. *)
Lemma scanInv_edges_noself L vcom S vcs vcout u (es : list (nat * Z)) :
  scanInv L vcom S vcs vcout ->
  (forall v w, In (v, w) es -> u <> v -> vcom !!! v < L /\ (0 < w)%Z) ->
  let '(vcs', vcout') :=
    foldl (fun '(vcs, vcout) '(v, w) => louvainScanCommunityW false vcs vcout u v w vcom)
          (vcs, vcout) es in
  scanInv L vcom (S ++ List.filter (fun e => negb (Nat.eqb u (fst e))) es) vcs' vcout'.
Proof.
  revert S vcs vcout. induction es as [|[v w] es IH]; intros S vcs vcout H Hes.
  - cbn [foldl List.filter]. by rewrite app_nil_r.
  - cbn [foldl List.filter fst]. destruct (Nat.eqb_spec u v) as [<-|Hne].
    + assert (E : louvainScanCommunityW false vcs vcout u u w vcom = (vcs, vcout))
        by (unfold louvainScanCommunityW; by rewrite Nat.eqb_refl).
      rewrite E. cbn [negb].
      apply IH; [done|]. intros v' w' Hin Hne. apply Hes; [by right|done].
    + assert (E : louvainScanCommunityW false vcs vcout u v w vcom =
                  louvainScanCommunityW true vcs vcout u v w vcom)
        by (unfold louvainScanCommunityW; apply Nat.eqb_neq in Hne; by rewrite Hne).
      rewrite E. destruct (Hes v w ltac:(left; done) Hne) as [Hv Hw].
      pose proof (scanInv_step L vcom S vcs vcout u v w H Hv Hw) as H1.
      destruct (louvainScanCommunityW true vcs vcout u v w vcom) as [vcs1 vcout1].
      cbn [negb].
      specialize (IH (S ++ [(v, w)]) vcs1 vcout1 H1
                     ltac:(intros v' w' Hin Hne'; apply Hes; [by right|done])).
      by rewrite <- app_assoc in IH.
Qed.

Lemma Qltb_spec a b : Qltb a b = true <-> (a < b)%Q.
Proof.
  unfold Qltb. rewrite negb_true_iff. split.
  - intros H. apply Qnot_le_lt. intros H'. apply Qle_bool_iff in H'. congruence.
  - intros H. destruct (Qle_bool b a) eqn:E; [|done]. apply Qle_bool_iff in E.
    exfalso. exact (Qlt_not_le a b H E).
Qed.

Lemma louvainChooseCommunity_fold (d : nat) (gain : nat -> Q) pre rest cm em :
  (forall c', In c' pre -> c' <> d -> (gain c' <= em)%Q) ->
  ((cm, em) = (0, 0%Q) \/ (In cm pre /\ cm <> d /\ (0 < em)%Q /\ em = gain cm)) ->
  let '(c, e) :=
    foldl (fun '(cmax, emax) c =>
             if negb false && (c =? d) then (cmax, emax) else
             let e := gain c in
             if Qltb emax e then (c, e) else (cmax, emax)) (cm, em) rest in
  (forall c', In c' (pre ++ rest) -> c' <> d -> (gain c' <= e)%Q) /\
  ((c, e) = (0, 0%Q) \/ (In c (pre ++ rest) /\ c <> d /\ (0 < e)%Q /\ e = gain c)).
Proof.
  revert pre cm em. induction rest as [|c rest IH]; intros pre cm em Hle Hcm.
  - cbn [foldl]. rewrite app_nil_r. done.
  - cbn [foldl]. change (pre ++ c :: rest) with (pre ++ [c] ++ rest). rewrite app_assoc.
    assert (Hnn : (0 <= em)%Q).
    { destruct Hcm as [E|(_ & _ & H & _)]; [injection E as _ ->; apply Qle_refl|].
      by apply Qlt_le_weak. }
    destruct (Nat.eqb_spec c d) as [->|Hne]; cbn [negb andb].
    + apply IH.
      * intros c' Hc' Hne. apply in_app_or in Hc' as [Hc'|[<-|[]]]; [by apply Hle|done].
      * destruct Hcm as [E|(H1 & H2)]; [by left|right]. split; [apply in_or_app; by left|done].
    + destruct (Qltb em (gain c)) eqn:Elt.
      * apply Qltb_spec in Elt. apply IH.
        -- intros c' Hc' Hne'. apply in_app_or in Hc' as [Hc'|[<-|[]]].
           ++ apply Qle_trans with em; [by apply Hle|by apply Qlt_le_weak].
           ++ apply Qle_refl.
        -- right. split; [apply in_or_app; right; by left|split; [done|split; [|done]]].
           exact (Qle_lt_trans _ _ _ Hnn Elt).
      * assert (Hge : (gain c <= em)%Q).
        { apply Qnot_lt_le. intros H. apply Qltb_spec in H. congruence. }
        apply IH.
        -- intros c' Hc' Hne'. apply in_app_or in Hc' as [Hc'|[<-|[]]]; [by apply Hle|done].
        -- destruct Hcm as [E|(H1 & H2)]; [by left|right].
           split; [apply in_or_app; by left|done].
Qed.

(** What [louvainChooseCommunity<false>] returns. *)
Lemma louvainChooseCommunity_spec (x : Graph) (u : nat) (vcom : list nat) (vtot ctot : list Z)
    (vcs : list nat) (vcout : list Z) (M R : Q) :
  let d := vcom !!! u in
  let gain c := deltaModularity (vcout !!! c) (vcout !!! d) (vtot !!! u)
                                (ctot !!! c) (ctot !!! d) M R in
  let '(c, e) := louvainChooseCommunity false x u vcom vtot ctot vcs vcout M R in
  (forall c', In c' vcs -> c' <> d -> (gain c' <= e)%Q) /\
  ((c, e) = (0, 0%Q) \/ (In c vcs /\ c <> d /\ (0 < e)%Q /\ e = gain c)).
Proof.
  intros d gain. unfold louvainChooseCommunity.
  exact (louvainChooseCommunity_fold d gain [] vcs 0 0%Q
           ltac:(intros ? []) ltac:(by left)).
Qed.

(** [louvainChooseCommunity<false>] returns the best strictly positive
    gain over the candidates [vcs] other than [u]'s community [d], with
    its community; it returns [(0, 0)] when no candidate has a positive
    gain. *)
Theorem louvainChooseCommunity_best (x : Graph) (u : nat) (vcom : list nat)
    (vtot ctot : list Z) (vcs : list nat) (vcout : list Z) (M R : Q) :
  let d := vcom !!! u in
  let gain c := deltaModularity (vcout !!! c) (vcout !!! d) (vtot !!! u)
                                (ctot !!! c) (ctot !!! d) M R in
  let '(c, e) := louvainChooseCommunity false x u vcom vtot ctot vcs vcout M R in
  (forall c', In c' vcs -> c' <> d -> (gain c' <= e)%Q) /\
  ((c, e) = (0, 0%Q) \/ (In c vcs /\ c <> d /\ (0 < e)%Q /\ e = gain c)).
Proof. exact (louvainChooseCommunity_spec x u vcom vtot ctot vcs vcout M R). Qed.

(** Scanning [u] for the local-mover ([SELF = false]) right after
    [louvainClearScanW], with positive weights on the edges of [u] that
    are not self-loops: [vcs] lists each community linked to [u] once,
    [vcout[d]] is the weight of the edges from [u] to other vertices of
    [d] (self-loops are skipped), and [d] is listed exactly when that
    weight is positive. *)
Theorem louvainScanCommunitiesW_no_self (vcs : list nat) (vcout : list Z) (x : Graph)
    (u : nat) (vcom : list nat) :
  scratchInv vcs vcout ->
  (forall v w, In (v, w) (edgesOf x u) -> u <> v ->
     vcom !!! v < length vcout /\ (0 < w)%Z) ->
  let '(vcs1, vcout1) := louvainClearScanW vcs vcout in
  let '(vcs2, vcout2) := louvainScanCommunitiesW false vcs1 vcout1 x u vcom in
  length vcout2 = length vcout /\ NoDup vcs2 /\
  (forall d, d < length vcout ->
     vcout2 !!! d = wIf (fun v => negb (Nat.eqb u v) && Nat.eqb (vcom !!! v) d) (edgesOf x u)) /\
  (forall d, d < length vcout -> In d vcs2 <-> (0 < vcout2 !!! d)%Z).
Proof.
  intros Hscr Hes.
  pose proof (scanInv_cleared (length vcout) vcom vcs vcout Hscr eq_refl) as H1.
  destruct (louvainClearScanW vcs vcout) as [vcs1 vcout1]. cbn [fst snd] in H1.
  unfold louvainScanCommunitiesW.
  pose proof (scanInv_edges_noself (length vcout) vcom [] vcs1 vcout1 u (edgesOf x u) H1 Hes)
    as H2.
  destruct (foldl _ (vcs1, vcout1) (edgesOf x u)) as [vcs2 vcout2].
  destruct H2 as (HL & Hnd & _ & Hv & _ & Hin & _).
  split; [done|split; [exact Hnd|split; [|done]]].
  intros d Hd. rewrite Hv by done. cbn [app].
  apply (wIf_filter_fst (fun v => negb (Nat.eqb u v))).
Qed.

(** The tables of the local-moving phase: sized [x.span()], the labels of
    the vertices are table indices, and [ctot] is the weight of each
    community. *)
Definition moveInv (x : Graph) (vtot : list Z) (vcom : list nat) (ctot : list Z) : Prop :=
  length vcom = gspan x /\ length ctot = gspan x /\ labelsBelow x vcom (gspan x) /\
  ctotInv x vcom vtot ctot.

Lemma louvainScanCommunitiesW_members SELF vcs vcout u vcom (es : list (nat * Z)) c :
  In c (foldl (fun '(vcs, vcout) '(v, w) => louvainScanCommunityW SELF vcs vcout u v w vcom)
              (vcs, vcout) es).1 ->
  In c vcs \/ exists v w, In (v, w) es /\ c = vcom !!! v.
Proof.
  revert vcs vcout. induction es as [|[v w] es IH]; intros vcs vcout H; cbn [foldl] in H;
    [by left|].
  destruct (louvainScanCommunityW SELF vcs vcout u v w vcom) as [vcs1 vcout1] eqn:E.
  apply IH in H as [H|(v' & w' & Hin & ->)];
    [|right; exists v', w'; split; [by right|done]].
  unfold louvainScanCommunityW in E. destruct (negb SELF && (u =? v)).
  - injection E as <- _. by left.
  - injection E as E1 _. subst vcs1. destruct (Z.eqb _ 0).
    + apply in_app_or in H as [H|[<-|[]]]; [by left|]. right. exists v, w. split; [by left|done].
    + by left.
Qed.

Section Moving.

Variables (x : Graph) (vtot : list Z) (M R : Q).
Hypothesis Hwf : forall u v w, In u (vertexKeys x) -> In (v, w) (edgesOf x u) ->
  In v (vertexKeys x).

Lemma louvainMoveVertex_inv st u :
  In u (vertexKeys x) -> moveInv x vtot (ms_vcom st) (ms_ctot st) ->
  moveInv x vtot (ms_vcom (louvainMoveVertex x vtot M R st u))
                 (ms_ctot (louvainMoveVertex x vtot M R st u)).
Proof.
  intros Hu Hinv. destruct st as [vcom ctot vaff vcs vcout el]. cbn [ms_vcom ms_ctot] in Hinv.
  unfold louvainMoveVertex. destruct (negb (vaff !!! u)); [exact Hinv|].
  destruct (louvainClearScanW vcs vcout) as [vcs1 vcout1] eqn:Ecl.
  assert (vcs1 = []) as -> by (unfold louvainClearScanW in Ecl; congruence).
  pose proof (louvainScanCommunitiesW_members false [] vcout1 u vcom (edgesOf x u)) as Hm.
  unfold louvainScanCommunitiesW.
  destruct (foldl _ ([], vcout1) (edgesOf x u)) as [vcs2 vcout2]. cbn [fst] in Hm.
  pose proof (louvainChooseCommunity_spec x u vcom vtot ctot vcs2 vcout2 M R) as Hch.
  cbv zeta in Hch.
  destruct (louvainChooseCommunity false x u vcom vtot ctot vcs2 vcout2 M R) as [c e].
  destruct (Nat.eqb_spec c 0) as [->|Hc0]; [exact Hinv|].
  destruct Hinv as (L1 & L2 & Hlab & Hctot).
  assert (Hcs : c < gspan x).
  { destruct Hch as [_ [E|(Hin & _)]]; [injection E as E _; lia|].
    destruct (Hm c Hin) as [[]|(v & w & Hvw & ->)]. apply Hlab, (Hwf u v w Hu Hvw). }
  pose proof (louvainChangeCommunityW_inv x vcom ctot vtot u c L1 L2 Hlab Hctot Hu Hcs) as Hchg.
  destruct (louvainChangeCommunityW vcom ctot x u c vtot) as [vcom' ctot'].
  exact Hchg.
Qed.

Lemma louvainMoveVertex_fold ks st :
  (forall u, In u ks -> In u (vertexKeys x)) -> moveInv x vtot (ms_vcom st) (ms_ctot st) ->
  moveInv x vtot (ms_vcom (foldl (louvainMoveVertex x vtot M R) st ks))
                 (ms_ctot (foldl (louvainMoveVertex x vtot M R) st ks)).
Proof.
  revert st. induction ks as [|u ks IH]; intros st Hks Hinv; [exact Hinv|].
  cbn [foldl]. apply IH; [intros; apply Hks; by right|].
  apply louvainMoveVertex_inv; [apply Hks; by left|exact Hinv].
Qed.

Lemma louvainMoveLoop_inv fc k l st :
  moveInv x vtot (ms_vcom st) (ms_ctot st) ->
  let '(l', st') := louvainMoveLoop k x vtot M R fc l st in
  l' <= l + k /\ moveInv x vtot (ms_vcom st') (ms_ctot st').
Proof.
  revert l st. induction k as [|k IH]; intros l st Hinv; cbn [louvainMoveLoop].
  - split; [lia|exact Hinv].
  - assert (Hs : moveInv x vtot (ms_vcom (louvainMoveSweep x vtot M R st))
                                (ms_ctot (louvainMoveSweep x vtot M R st))).
    { unfold louvainMoveSweep. apply louvainMoveVertex_fold; [done|exact Hinv]. }
    destruct (fc _ l).
    + split; [lia|exact Hs].
    + specialize (IH (Datatypes.S l) _ Hs).
      destruct (louvainMoveLoop k x vtot M R fc (Datatypes.S l) _) as [l' st'].
      destruct IH as [Hl Hi]. split; [lia|exact Hi].
Qed.

Lemma louvainMoveVertex_idle st u :
  ms_vaff st !!! u = false -> louvainMoveVertex x vtot M R st u = st.
Proof.
  intros H. destruct st as [vcom ctot vaff vcs vcout el]. cbn in H.
  unfold louvainMoveVertex. by rewrite H.
Qed.

Lemma louvainMoveSweep_idle ks st :
  (forall u, In u ks -> ms_vaff st !!! u = false) ->
  foldl (louvainMoveVertex x vtot M R) st ks = st.
Proof.
  revert st. induction ks as [|u ks IH]; intros st H; [done|].
  cbn [foldl]. rewrite louvainMoveVertex_idle by (apply H; by left).
  apply IH. intros; apply H; by right.
Qed.

End Moving.

(** The local-moving phase keeps its tables consistent: on a graph whose
    edges lead to vertices, if [vcom] and [ctot] are sized [x.span()],
    the labels of the vertices are table indices and [ctot[c]] is the
    weight [Σ_{u: vcom[u]=c} vtot[u]] of every community, all this
    still holds after [louvainMoveW], and the returned iteration count is
    at most [L]. *)
Theorem louvainMoveW_keeps_tables (vcom : list nat) (ctot : list Z) (vaff : list bool)
    (vcs : list nat) (vcout : list Z) (x : Graph) (vtot : list Z) (M R : Q) (L : nat)
    (fc : Q -> nat -> bool) :
  (forall u v w, In u (vertexKeys x) -> In (v, w) (edgesOf x u) -> In v (vertexKeys x)) ->
  length vcom = gspan x -> length ctot = gspan x ->
  labelsBelow x vcom (gspan x) -> ctotInv x vcom vtot ctot ->
  let '(l, st) := louvainMoveW vcom ctot vaff vcs vcout x vtot M R L fc in
  l <= L /\ length (ms_vcom st) = gspan x /\ length (ms_ctot st) = gspan x /\
  labelsBelow x (ms_vcom st) (gspan x) /\ ctotInv x (ms_vcom st) vtot (ms_ctot st).
Proof.
  intros Hwf L1 L2 Hlab Hctot. unfold louvainMoveW.
  pose proof (louvainMoveLoop_inv x vtot M R Hwf fc L 0 (mkMoveState vcom ctot vaff vcs vcout 0%Q)
                (conj L1 (conj L2 (conj Hlab Hctot)))) as H.
  destruct (louvainMoveLoop L x vtot M R fc 0 _) as [l st].
  destruct H as [Hl (M1 & M2 & M3 & M4)].
  split; [destruct (_ || _); lia|done].
Qed.

(** When no vertex of [x] is marked affected, [louvainMoveW] with the
    drivers' convergence test [el <= E] ([E >= 0]) changes nothing and
    returns 0 iterations (only [el] is reset to 0). *)
Theorem louvainMoveW_none_affected (vcom : list nat) (ctot : list Z) (vaff : list bool)
    (vcs : list nat) (vcout : list Z) (x : Graph) (vtot : list Z) (M R : Q) (L : nat)
    (E : Q) :
  (forall u, In u (vertexKeys x) -> vaff !!! u = false) -> (0 <= E)%Q ->
  louvainMoveW vcom ctot vaff vcs vcout x vtot M R L (convergedFc E) =
  (0, mkMoveState vcom ctot vaff vcs vcout 0%Q).
Proof.
  intros Hv HE. unfold louvainMoveW. destruct L as [|L]; [reflexivity|].
  cbn [louvainMoveLoop]. unfold louvainMoveSweep. cbn [ms_vcom ms_ctot ms_vaff ms_vcs ms_vcout].
  rewrite louvainMoveSweep_idle by done.
  unfold convergedFc. cbn [ms_el]. rewrite (proj2 (Qle_bool_iff _ _) HE). reflexivity.
Qed.

(** *** Community properties *)

Lemma length_entries (x : Graph) : length (entries x) = sum_list (map (degree x) (vertexKeys x)).
Proof.
  unfold entries, degree. induction (vertexKeys x) as [|u ks IH]; [done|].
  cbn [flat_map map sum_list]. rewrite length_app, length_map, IH. done.
Qed.

Lemma fillValueU_zero (a : list nat) :
  length (fillValueU a 0) = length a /\ sum_list (fillValueU a 0) = 0 /\
  (forall c, c < length a -> fillValueU a 0 !!! c = 0).
Proof.
  unfold fillValueU. split; [apply repeat_length|split; [apply sum_list_repeat0|]].
  intros c Hc. by apply lookup_total_repeat.
Qed.

Lemma louvainCommunityTotalDegreeW_fold (x : Graph) vcom rest (a : list nat) n :
  length a = n -> (forall u, In u rest -> vcom !!! u < n) ->
  let a' := foldl (fun a u => let c := vcom !!! u in <[c := a !!! c + degree x u]> a) a rest in
  length a' = n /\
  (forall c, c < n -> a' !!! c = a !!! c + sum_list (map (degree x) (bucket vcom rest c))) /\
  sum_list a' = sum_list a + sum_list (map (degree x) rest).
Proof.
  cbv zeta. revert a. induction rest as [|u rest IH]; intros a Ha Hr; cbn [foldl].
  - split; [done|split; [intros; cbn; lia|cbn; lia]].
  - assert (Hc0 : vcom !!! u < n) by (apply Hr; left; done).
    destruct (IH (<[vcom !!! u := a !!! (vcom !!! u) + degree x u]> a)) as (L & Hc & Hs).
    { by rewrite length_insert. }
    { intros; apply Hr; by right. }
    split; [done|split].
    + intros c Hc'. rewrite Hc by done. rewrite bucket_cons.
      destruct (decide (vcom !!! u = c)) as [<-|Hne].
      * rewrite list_lookup_total_insert_eq by lia. rewrite Nat.eqb_refl. cbn. lia.
      * rewrite list_lookup_total_insert_ne by done.
        apply Nat.eqb_neq in Hne. rewrite Hne. cbn. lia.
    + rewrite Hs. pose proof (sum_list_insert a (vcom !!! u) (a !!! (vcom !!! u) + degree x u)
                                ltac:(lia)). cbn [map sum_list id]. lia.
Qed.

Lemma louvainCommunityExistsW_count_le (vcom : list nat) rest (a : list nat) C :
  (foldl (fun '(a, C) u =>
            let c := vcom !!! u in
            (<[c := 1]> a, if a !!! c =? 0 then Datatypes.S C else C))
         (a, C) rest).2 <= C + length rest.
Proof.
  revert a C. induction rest as [|k rest IH]; intros a C; cbn [foldl]; [cbn; lia|].
  etransitivity; [apply IH|]. cbn [length]. destruct (_ =? 0); lia.
Qed.

(** [louvainCommunityTotalDegreeW] gives each community [c] the total
    degree of its vertices; the totals add up to the number of edges of
    [x]. *)
Theorem louvainCommunityTotalDegreeW_sums (a : list nat) (x : Graph) (vcom : list nat) :
  labelsBelow x vcom (length a) ->
  let a' := louvainCommunityTotalDegreeW a x vcom in
  length a' = length a /\
  (forall c, c < length a ->
     a' !!! c = sum_list (map (degree x) (bucket vcom (vertexKeys x) c))) /\
  sum_list a' = length (entries x).
Proof.
  intros Hlab. unfold louvainCommunityTotalDegreeW.
  destruct (fillValueU_zero a) as (F1 & F2 & F3).
  destruct (louvainCommunityTotalDegreeW_fold x vcom (vertexKeys x) (fillValueU a 0) (length a)
              F1 Hlab) as (L & Hc & Hs).
  cbv zeta in L, Hc, Hs |- *.
  split; [done|split].
  - intros c Hlt. rewrite Hc, F3 by done. lia.
  - rewrite Hs, F2, length_entries. lia.
Qed.

(** [louvainCountCommunityVerticesW] gives each community [c] the number
    of its vertices; the counts add up to the order of [x]. *)
Theorem louvainCountCommunityVerticesW_counts (a : list nat) (x : Graph) (vcom : list nat) :
  labelsBelow x vcom (length a) ->
  let a' := louvainCountCommunityVerticesW a x vcom in
  length a' = length a /\
  (forall c, c < length a -> a' !!! c = length (bucket vcom (vertexKeys x) c)) /\
  sum_list a' = order x.
Proof.
  intros Hlab. unfold louvainCountCommunityVerticesW.
  destruct (fillValueU_zero a) as (F1 & F2 & F3).
  destruct (louvainCountCommunityVerticesW_fold vcom (vertexKeys x) (fillValueU a 0) (length a)
              F1 Hlab) as (L & Hc & Hs).
  cbv zeta in L, Hc, Hs |- *.
  split; [done|split].
  - intros c Hlt. rewrite Hc, F3 by done. lia.
  - rewrite Hs, F2. done.
Qed.

(** [louvainCommunityExistsW] flags with 1 exactly the communities that
    hold a vertex of [x] (the others with 0), and returns their number,
    which is at most the order of [x]. *)
Theorem louvainCommunityExistsW_flags (a0 : list nat) (x : Graph) (vcom : list nat) :
  labelsBelow x vcom (length a0) ->
  let '(a, C) := louvainCommunityExistsW a0 x vcom in
  length a = length a0 /\
  (forall c, c < length a0 ->
     (exists u, In u (vertexKeys x) /\ vcom !!! u = c) -> a !!! c = 1) /\
  (forall c, c < length a0 ->
     ~ (exists u, In u (vertexKeys x) /\ vcom !!! u = c) -> a !!! c = 0) /\
  C = length (List.filter (isNonempty x vcom) (seq 0 (length a0))) /\
  C <= order x.
Proof.
  intros Hlab.
  pose proof (louvainCommunityExistsW_count_le vcom (vertexKeys x) (fillValueU a0 0) 0) as Hle.
  pose proof (louvainCommunityExistsW_spec a0 x vcom Hlab) as Hs.
  unfold louvainCommunityExistsW in Hs |- *.
  destruct (foldl _ _ (vertexKeys x)) as [a C]. cbn [snd] in Hle.
  destruct Hs as (L & Hf & HC).
  split; [done|split; [|split; [|split]]].
  - intros c Hc Hex. rewrite Hf by done. apply isNonempty_spec in Hex. by rewrite Hex.
  - intros c Hc Hex. rewrite Hf by done.
    destruct (isNonempty x vcom c) eqn:E; [|done]. apply isNonempty_spec in E. contradiction.
  - rewrite HC, <- L, <- sum_list_take_all.
    apply sum_list_take_count; [lia|]. rewrite L. exact Hf.
  - unfold order. lia.
Qed.

(** *** The aggregated graph *)

Lemma louvainScanCommunitiesW_grow SELF vcs vcout u vcom (es : list (nat * Z)) :
  length (foldl (fun '(vcs, vcout) '(v, w) => louvainScanCommunityW SELF vcs vcout u v w vcom)
                (vcs, vcout) es).1 <= length vcs + length es.
Proof.
  revert vcs vcout. induction es as [|[v w] es IH]; intros vcs vcout; cbn [foldl]; [cbn; lia|].
  destruct (louvainScanCommunityW SELF vcs vcout u v w vcom) as [vcs1 vcout1] eqn:E.
  etransitivity; [apply IH|]. cbn [length].
  unfold louvainScanCommunityW in E. destruct (negb SELF && (u =? v)).
  - injection E as <- _. lia.
  - injection E as <- _. destruct (Z.eqb _ 0); [rewrite length_app; cbn; lia|lia].
Qed.

Lemma louvainScanSlice_grow (x : Graph) vcom vcs vcout us :
  length (foldl (fun '(vcs, vcout) u => louvainScanCommunitiesW true vcs vcout x u vcom)
                (vcs, vcout) us).1 <= length vcs + sum_list (map (degree x) us).
Proof.
  revert vcs vcout. induction us as [|u us IH]; intros vcs vcout; cbn [foldl]; [cbn; lia|].
  pose proof (louvainScanCommunitiesW_grow true vcs vcout u vcom (edgesOf x u)) as H.
  unfold louvainScanCommunitiesW at 2. unfold louvainScanCommunitiesW in H.
  destruct (foldl _ (vcs, vcout) (edgesOf x u)) as [vcs1 vcout1]. cbn [fst] in H.
  etransitivity; [apply IH|]. unfold degree. cbn [map sum_list id]. lia.
Qed.

Lemma louvainScanSlice_members (x : Graph) vcom vcs vcout us c :
  In c (foldl (fun '(vcs, vcout) u => louvainScanCommunitiesW true vcs vcout x u vcom)
              (vcs, vcout) us).1 ->
  In c vcs \/ exists u v w, In u us /\ In (v, w) (edgesOf x u) /\ c = vcom !!! v.
Proof.
  revert vcs vcout. induction us as [|u us IH]; intros vcs vcout H; cbn [foldl] in H; [by left|].
  pose proof (louvainScanCommunitiesW_members true vcs vcout u vcom (edgesOf x u) c) as Hm.
  unfold louvainScanCommunitiesW at 2 in H. unfold louvainScanCommunitiesW in Hm.
  destruct (foldl _ (vcs, vcout) (edgesOf x u)) as [vcs1 vcout1]. cbn [fst] in Hm.
  apply IH in H as [H|(u' & v & w & Hu & Hvw & ->)].
  - destruct (Hm H) as [H'|(v & w & Hvw & ->)]; [by left|].
    right. exists u, v, w. split; [by left|done].
  - right. exists u', v, w. split; [by right|done].
Qed.

Section Shape.

Variables (x : Graph) (vcom coff cedg : list nat).
Let C := length coff - 1.
Hypothesis Hwf : forall u v w, In u (vertexKeys x) -> In (v, w) (edgesOf x u) ->
  In v (vertexKeys x).
Hypothesis Hlab : labelsBelow x vcom C.
Hypothesis Hslice : forall c, c < C -> csrSlice coff cedg c = bucket vcom (vertexKeys x) c.

Lemma louvainAggregateEdgesW_shape_step c yadj vcs vcout :
  c < C ->
  let '(yadj', _, _) :=
    (fun '(yadj, vcs, vcout) c =>
       let n := coff !!! Datatypes.S c - coff !!! c in
       if n =? 0 then (yadj ++ [[]], vcs, vcout) else
       let '(vcs1, vcout1) := louvainClearScanW vcs vcout in
       let '(vcs2, vcout2) :=
         foldl (fun '(vcs, vcout) u => louvainScanCommunitiesW true vcs vcout x u vcom)
               (vcs1, vcout1) (csrSlice coff cedg c) in
       (yadj ++ [map (fun d => (d, vcout2 !!! d)) vcs2], vcs2, vcout2)) (yadj, vcs, vcout) c in
  exists l, yadj' = yadj ++ [l] /\ (forall d w, In (d, w) l -> d < C) /\
            length l <= sum_list (map (degree x) (bucket vcom (vertexKeys x) c)).
Proof.
  intros Hc. cbv beta iota zeta.
  destruct (coff !!! Datatypes.S c - coff !!! c =? 0).
  - exists []. split; [done|split; [intros ? ? []|cbn; lia]].
  - destruct (louvainClearScanW vcs vcout) as [vcs1 vcout1] eqn:Ecl.
    assert (vcs1 = []) as -> by (unfold louvainClearScanW in Ecl; congruence).
    pose proof (louvainScanSlice_members x vcom [] vcout1 (csrSlice coff cedg c)) as Hm.
    pose proof (louvainScanSlice_grow x vcom [] vcout1 (csrSlice coff cedg c)) as Hg.
    destruct (foldl _ ([], vcout1) (csrSlice coff cedg c)) as [vcs2 vcout2].
    cbn [fst] in Hm, Hg.
    exists (map (fun d => (d, vcout2 !!! d)) vcs2). split; [done|split].
    + intros d w Hdw. apply in_map_iff in Hdw as (d' & Ed & Hd'). injection Ed as -> _.
      destruct (Hm d Hd') as [[]|(u & v & w' & Hu & Hvw & ->)].
      rewrite Hslice in Hu by done. unfold bucket in Hu. apply List.filter_In in Hu as [Hu _].
      apply Hlab, (Hwf u v w' Hu Hvw).
    + rewrite length_map. rewrite <- Hslice by done. cbn [length] in Hg. lia.
Qed.

Lemma louvainAggregateEdgesW_shape_fold cs yadj vcs vcout :
  (forall c, In c cs -> c < C) ->
  let '(yadj', _, _) :=
    foldl (fun '(yadj, vcs, vcout) c =>
             let n := coff !!! Datatypes.S c - coff !!! c in
             if n =? 0 then (yadj ++ [[]], vcs, vcout) else
             let '(vcs1, vcout1) := louvainClearScanW vcs vcout in
             let '(vcs2, vcout2) :=
               foldl (fun '(vcs, vcout) u => louvainScanCommunitiesW true vcs vcout x u vcom)
                     (vcs1, vcout1) (csrSlice coff cedg c) in
             (yadj ++ [map (fun d => (d, vcout2 !!! d)) vcs2], vcs2, vcout2))
          (yadj, vcs, vcout) cs in
  exists ys, yadj' = yadj ++ ys /\ length ys = length cs /\
    (forall i, i < length cs ->
       (forall d w, In (d, w) (ys !!! i) -> d < C) /\
       length (ys !!! i) <= sum_list (map (degree x) (bucket vcom (vertexKeys x) (cs !!! i)))).
Proof.
  revert yadj vcs vcout. induction cs as [|c cs IH]; intros yadj vcs vcout Hcs.
  - cbn [foldl]. exists []. rewrite app_nil_r. split; [done|split; [done|intros i Hi; cbn in Hi; lia]].
  - cbn [foldl].
    pose proof (louvainAggregateEdgesW_shape_step c yadj vcs vcout
                  ltac:(apply Hcs; left; done)) as Hs.
    cbn beta iota zeta in Hs.
    destruct (if coff !!! Datatypes.S c - coff !!! c =? 0 then _ else _) as [[yadj1 vcs1] vcout1].
    destruct Hs as (l & -> & Hl1 & Hl2).
    specialize (IH (yadj ++ [l]) vcs1 vcout1 ltac:(intros; apply Hcs; by right)).
    destruct (foldl _ _ cs) as [[yadj2 vcs2] vcout2].
    destruct IH as (ys & -> & Hlen & Hys).
    exists (l :: ys). rewrite <- app_assoc. split; [done|split; [cbn; lia|]].
    intros [|i] Hi; [done|]. apply Hys. cbn in Hi. lia.
Qed.

End Shape.

(** The graph [y] built by [louvainAggregateW] is well formed: its
    vertices are the communities [0 .. C-1], every edge leads to one of
    them, and the number of edges of community [c] is at most the total
    degree of [c] computed by [louvainCommunityTotalDegreeW], the size of
    the slice of the CSR it is written into.  This holds for any edge
    weights, on a graph whose edges lead to vertices, with a labelling
    below [C] and the community CSR [coff], [cedg]. *)
Theorem louvainAggregateW_shape (vcs : list nat) (vcout : list Z) (x : Graph)
    (vcom coff cedg : list nat) :
  (forall u v w, In u (vertexKeys x) -> In (v, w) (edgesOf x u) -> In v (vertexKeys x)) ->
  labelsBelow x vcom (length coff - 1) ->
  (forall c, c < length coff - 1 -> csrSlice coff cedg c = bucket vcom (vertexKeys x) c) ->
  let C := length coff - 1 in
  let '(y, _, _) := louvainAggregateW vcs vcout x vcom coff cedg in
  vertexKeys y = seq 0 C /\ length (gadj y) = C /\
  (forall c d w, c < C -> In (d, w) (edgesOf y c) -> d < C) /\
  (forall c, c < C -> degree y c <= louvainCommunityTotalDegreeW (repeat 0 C) x vcom !!! c).
Proof.
  intros Hwf Hlab Hslice C.
  unfold louvainAggregateW, louvainAggregateEdgesW. fold C.
  pose proof (louvainAggregateEdgesW_shape_fold x vcom coff cedg Hwf Hlab Hslice (seq 0 C) [] vcs vcout
                ltac:(intros c Hc; apply in_seq in Hc; unfold C; lia)) as Hf.
  destruct (foldl _ ([], vcs, vcout) (seq 0 C)) as [[yadj vcs'] vcout'].
  destruct Hf as (ys & -> & Hlen & Hys). cbn [app] in *. rewrite length_seq in Hlen.
  destruct (louvainCommunityTotalDegreeW_fold x vcom (vertexKeys x) (fillValueU (repeat 0 C) 0) C)
    as (_ & Hdeg & _).
  { unfold fillValueU. by rewrite !repeat_length. }
  { exact Hlab. }
  split; [|split; [done|split]].
  - unfold vertexKeys, hasVertex. cbn [gspan ghas]. apply filter_all_true.
    intros u Hu. apply in_seq in Hu. apply lookup_total_repeat. lia.
  - intros c d w Hc Hdw. unfold edgesOf in Hdw. cbn [gadj] in Hdw.
    destruct (Hys c ltac:(rewrite length_seq; lia)) as [Hd _].
    by apply (Hd d w).
  - intros c Hc. unfold degree, edgesOf. cbn [gadj].
    destruct (Hys c ltac:(rewrite length_seq; lia)) as [_ Hl].
    rewrite lookup_total_seq_lt, Nat.add_0_l in Hl by done.
    unfold louvainCommunityTotalDegreeW. cbv zeta in Hdeg |- *. rewrite Hdeg by done.
    unfold fillValueU. rewrite repeat_length, lookup_total_repeat by done. lia.
Qed.

(** *** The drivers *)

Lemma louvainMoveVertex_length (x : Graph) vtot M R st u :
  length (ms_vcom (louvainMoveVertex x vtot M R st u)) = length (ms_vcom st).
Proof.
  destruct st as [vcom ctot vaff vcs vcout el]. unfold louvainMoveVertex.
  destruct (negb (vaff !!! u)); [done|].
  destruct (louvainClearScanW vcs vcout) as [vcs1 vcout1].
  destruct (louvainScanCommunitiesW false vcs1 vcout1 x u vcom) as [vcs2 vcout2].
  destruct (louvainChooseCommunity _ _ _ _ _ _ _ _ _ _) as [c e].
  destruct (c =? 0); [done|]. cbn. apply length_insert.
Qed.

Lemma louvainMoveW_length vcom ctot vaff vcs vcout (x : Graph) vtot M R L fc :
  length (ms_vcom (louvainMoveW vcom ctot vaff vcs vcout x vtot M R L fc).2) = length vcom.
Proof.
  unfold louvainMoveW.
  enough (H : forall k l st, length (ms_vcom (louvainMoveLoop k x vtot M R fc l st).2) =
                             length (ms_vcom st)).
  { pose proof (H L 0 (mkMoveState vcom ctot vaff vcs vcout 0%Q)) as H'.
    destruct (louvainMoveLoop _ _ _ _ _ _ _ _) as [l st]. exact H'. }
  assert (Hs : forall st, length (ms_vcom (louvainMoveSweep x vtot M R st)) = length (ms_vcom st)).
  { intros st. unfold louvainMoveSweep. generalize (vertexKeys x) as ks. intros ks.
    enough (forall st0, length (ms_vcom (foldl (louvainMoveVertex x vtot M R) st0 ks)) =
                        length (ms_vcom st0)) by (rewrite H; done).
    induction ks as [|u ks IH]; intros st0; [done|]. cbn [foldl].
    rewrite IH. apply louvainMoveVertex_length. }
  induction k as [|k IH]; intros l st; [done|]. cbn [louvainMoveLoop].
  destruct (fc _ l); cbn [snd]; [apply Hs|]. rewrite IH. apply Hs.
Qed.

Lemma louvainNextLevel_shape S o (g : Graph) vcom vcs vcout a E CN :
  length (d_vcom (louvainNextLevel S o g vcom vcs vcout a E CN)) = S /\
  d_a (louvainNextLevel S o g vcom vcs vcout a E CN) = a.
Proof.
  unfold louvainNextLevel.
  destruct (louvainCommunityVerticesW _ _ _ _ _) as [[coff cdeg] cedg].
  destruct (louvainAggregateW _ _ _ _ _ _) as [[y vcs'] vcout'].
  pose proof (louvainInitializeW_length (repeat 0 S) (repeat 0%Z S)
                (louvainVertexWeightsW (repeat 0%Z S) y) y) as H.
  destruct (louvainInitializeW _ _ _ _) as [vcom' ctot']. cbn [fst] in H. cbn.
  rewrite H, repeat_length. done.
Qed.

Lemma louvainSeqPass_shape S o M p st :
  length (d_vcom st) = S -> length (d_a st) = S ->
  let '(m, st', go) := louvainSeqPass S o M p st in
  length (d_vcom st') = S /\ length (d_a st') = S /\
  (go = true -> Datatypes.S p < maxPasses o).
Proof.
  destruct st as [g vcom vtot ctot vaff vcs vcout a E]. cbn [d_vcom d_a]. intros Hv Ha.
  unfold louvainSeqPass.
  pose proof (louvainMoveW_length vcom ctot vaff vcs vcout g vtot M (resolution o)
                (maxIterations o) (convergedFc E)) as Hm.
  destruct (louvainMoveW _ _ _ _ _ _ _ _ _ _ _) as [m [vcom' ctot' vaff' vcs' vcout' el]].
  cbn [snd ms_vcom] in Hm.
  assert (Ha' : length (if p =? 0 then copyValuesW a vcom' else louvainLookupCommunitiesU a vcom')
                = S).
  { destruct (p =? 0); [unfold copyValuesW; lia|unfold louvainLookupCommunitiesU;
                                                  rewrite length_map; done]. }
  destruct ((m <=? 1) || (maxPasses o <=? Datatypes.S p)) eqn:Eb.
  { cbn. split; [lia|split; [done|discriminate]]. }
  destruct (louvainCommunityExistsW _ _ _) as [cext CN].
  destruct (Qle_bool _ _).
  { cbn. split; [lia|split; [done|discriminate]]. }
  destruct (louvainRenumberCommunitiesW _ _ _) as [[vcom2 cext'] C'].
  destruct (louvainNextLevel_shape S o g vcom2 vcs' vcout'
              (if p =? 0 then copyValuesW a vcom' else louvainLookupCommunitiesU a vcom') E CN)
    as [H1 H2].
  split; [done|split; [rewrite H2; done|intros _]].
  apply orb_false_iff in Eb as [_ Eb]. apply Nat.leb_gt in Eb. lia.
Qed.

Lemma louvainOmpPass_shape S o M p st :
  length (d_vcom st) = S -> length (d_a st) = S ->
  let '(m, st', go) := louvainOmpPass S o M p st in
  length (d_vcom st') = S /\ length (d_a st') = S /\
  (go = true -> Datatypes.S p < maxPasses o).
Proof.
  destruct st as [g vcom vtot ctot vaff vcs vcout a E]. cbn [d_vcom d_a]. intros Hv Ha.
  unfold louvainOmpPass.
  pose proof (louvainMoveW_length vcom ctot vaff vcs vcout g vtot M (resolution o)
                (maxIterations o) (convergedFc E)) as Hm.
  destruct (louvainMoveW _ _ _ _ _ _ _ _ _ _ _) as [m [vcom' ctot' vaff' vcs' vcout' el]].
  cbn [snd ms_vcom] in Hm.
  destruct ((m <=? 1) || (maxPasses o <=? Datatypes.S p)) eqn:Eb.
  { cbn. split; [lia|split; [done|discriminate]]. }
  destruct (louvainCommunityExistsW _ _ _) as [cext CN].
  destruct (Qle_bool _ _).
  { cbn. split; [lia|split; [done|discriminate]]. }
  unfold louvainRenumberCommunitiesW.
  destruct (exclusiveScanW cext) as [cext' C'].
  set (vcom2 := louvainLookupCommunitiesU vcom' cext').
  assert (Hv2 : length vcom2 = S) by (unfold vcom2, louvainLookupCommunitiesU;
                                       rewrite length_map; lia).
  destruct (louvainNextLevel_shape S o g vcom2 vcs' vcout'
              (if p =? 0 then copyValuesW a vcom2 else louvainLookupCommunitiesU a vcom2) E CN)
    as [H1 H2].
  split; [done|split; [rewrite H2|intros _]].
  - destruct (p =? 0); [unfold copyValuesW; done|unfold louvainLookupCommunitiesU;
                                               rewrite length_map; done].
  - apply orb_false_iff in Eb as [_ Eb]. apply Nat.leb_gt in Eb. lia.
Qed.

Lemma louvainInitialState_shape (x : Graph) q o fm :
  length (d_vcom (louvainInitialState x q o fm)) = gspan x /\
  d_a (louvainInitialState x q o fm) = repeat 0 (gspan x).
Proof.
  unfold louvainInitialState. destruct q as [q|].
  - pose proof (louvainInitializeFromW_length (repeat 0 (gspan x)) (repeat 0%Z (gspan x))
                  (louvainVertexWeightsW (repeat 0%Z (gspan x)) x) x q) as H.
    destruct (louvainInitializeFromW _ _ _ _ _) as [vcom ctot]. cbn in H |- *.
    rewrite H, repeat_length. done.
  - pose proof (louvainInitializeW_length (repeat 0 (gspan x)) (repeat 0%Z (gspan x))
                  (louvainVertexWeightsW (repeat 0%Z (gspan x)) x) x) as H.
    destruct (louvainInitializeW _ _ _ _) as [vcom ctot]. cbn in H |- *.
    rewrite H, repeat_length. done.
Qed.

(** [louvainSeq] and [louvainOmp] return a membership with one entry per
    vertex slot of [x] ([x.span()] entries), and never run more passes than
    [o.maxPasses], whatever the graph, the options, the initial membership
    and [fm]. *)
Theorem louvain_drivers_shape (x : Graph) (q : option (list nat)) (o : LouvainOptions)
    (fm : list bool -> list bool) :
  (let '(a, _, p) := louvainSeq x q o fm in length a = gspan x /\ p <= maxPasses o) /\
  (let '(a, _, p) := louvainOmp x q o fm in length a = gspan x /\ p <= maxPasses o).
Proof.
  destruct (louvainInitialState_shape x q o fm) as [Hv0 Ha0].
  assert (Ha0' : length (d_a (louvainInitialState x q o fm)) = gspan x)
    by (rewrite Ha0; apply repeat_length).
  split.
  - unfold louvainSeq.
    enough (H : forall fuel l p st, p <= maxPasses o ->
              length (d_vcom st) = gspan x -> length (d_a st) = gspan x ->
              let '(a, l', p') := louvainSeqLoop fuel (gspan x) o
                                   (inject_Z (edgeWeight x) / 2)%Q l p st in
              length a = gspan x /\ p' <= maxPasses o)
      by (apply H; [lia|done|done]).
    generalize (inject_Z (edgeWeight x) / 2)%Q as M. intros M.
    induction fuel as [|fuel IH]; intros l p st Hp Hv Ha; cbn [louvainSeqLoop]; [done|].
    destruct (Qltb 0 M && (p <? maxPasses o)) eqn:Ec; [|done].
    apply andb_true_iff in Ec as [_ Ec]. apply Nat.ltb_lt in Ec.
    pose proof (louvainSeqPass_shape (gspan x) o M p st Hv Ha) as Hs.
    destruct (louvainSeqPass _ _ _ _ _) as [[m st'] go].
    destruct Hs as (Hv' & Ha' & Hgo).
    destruct go.
    + apply IH; [|done|done]. specialize (Hgo eq_refl). lia.
    + split; [done|lia].
  - unfold louvainOmp.
    enough (H : forall fuel l p st, (p = 0 \/ p < maxPasses o) ->
              length (d_vcom st) = gspan x -> length (d_a st) = gspan x ->
              let '(st', l', p') := louvainOmpLoop fuel (gspan x) o
                                     (inject_Z (edgeWeight x) / 2)%Q l p st in
              length (d_vcom st') = gspan x /\ length (d_a st') = gspan x /\
              (p' = 0 \/ p' <= maxPasses o)).
    { pose proof (H (Datatypes.S (maxPasses o)) 0 0 (louvainInitialState x q o fm)
                    (or_introl eq_refl) Hv0 Ha0') as H'.
      destruct (louvainOmpLoop _ _ _ _ _ _ _) as [[st l] p].
      destruct H' as (Hv & Ha & Hp).
      split; [|lia].
      destruct (p <=? 1); [unfold copyValuesW; done|unfold louvainLookupCommunitiesU;
                                                   rewrite length_map; done]. }
    generalize (inject_Z (edgeWeight x) / 2)%Q as M. intros M.
    induction fuel as [|fuel IH]; intros l p st Hp Hv Ha; cbn [louvainOmpLoop].
    { split; [done|split; [done|lia]]. }
    destruct (Qltb 0 M && (0 <? maxPasses o)) eqn:Ec.
    2:{ split; [done|split; [done|lia]]. }
    apply andb_true_iff in Ec as [_ Ec]. apply Nat.ltb_lt in Ec.
    pose proof (louvainOmpPass_shape (gspan x) o M p st Hv Ha) as Hs.
    destruct (louvainOmpPass _ _ _ _ _) as [[m st'] go].
    destruct Hs as (Hv' & Ha' & Hgo).
    destruct go.
    + apply IH; [|done|done]. specialize (Hgo eq_refl). lia.
    + split; [done|split; [done|lia]].
Qed.

End Extras.

(** ** Instances of the theorems on concrete inputs *)

Section Instances.

(** Case split on membership in a concrete, computed list. *)
Ltac in_cases H := vm_compute in H; repeat destruct H as [<-|H]; try contradiction.

(** A graph whose vertex 1 is absent. *)
Definition holed : Graph :=
  mkGraph 4 [true; false; true; true] [[(2, 1%Z)]; []; [(0, 1%Z); (3, 1%Z)]; [(2, 1%Z)]].

Lemma louvainChangeCommunityW_frame_witness :
  1 < length [0; 1; 2] /\ [0; 1; 2] !!! 1 < length [5%Z; 3%Z; 4%Z] /\ 2 < length [5%Z; 3%Z; 4%Z] /\
  let d := [0; 1; 2] !!! 1 in
  let '(vcom', ctot') :=
    louvainChangeCommunityW [0; 1; 2] [5%Z; 3%Z; 4%Z] threeTriangles 1 2 (repeat 2%Z 9) in
  vcom' !!! 1 = 2 /\ (forall i, i <> 1 -> vcom' !!! i = [0; 1; 2] !!! i) /\
  length vcom' = length [0; 1; 2] /\ length ctot' = length [5%Z; 3%Z; 4%Z] /\
  (forall i, i <> 2 -> i <> d -> ctot' !!! i = [5%Z; 3%Z; 4%Z] !!! i) /\
  (2 <> d -> ctot' !!! d = ([5%Z; 3%Z; 4%Z] !!! d - repeat 2%Z 9 !!! 1%nat)%Z /\
             ctot' !!! 2 = ([5%Z; 3%Z; 4%Z] !!! 2%nat + repeat 2%Z 9 !!! 1%nat)%Z) /\
  (2 = d -> ctot' !!! 2 = [5%Z; 3%Z; 4%Z] !!! 2).
Proof.
  split; [cbn; lia|split; [cbn; lia|split; [cbn; lia|]]].
  apply (louvainChangeCommunityW_frame [0; 1; 2] [5%Z; 3%Z; 4%Z] (repeat 2%Z 9)
           threeTriangles 1 2); cbn; lia.
Defined.

Lemma louvainClearScanW_after_scans_witness :
  Forall (fun z => z = 0%Z) [0%Z; 0%Z; 0%Z] /\
  let '(vcs, vcout) :=
    scanOps [] [0%Z; 0%Z; 0%Z]
      [(false, 0, 1, 0%Z, [2; 2; 1]); (false, 0, 2, 3%Z, [2; 2; 1]);
       (true, 0, 0, 1%Z, [2; 2; 1])] in
  (louvainClearScanW vcs vcout).1 = [] /\
  Forall (fun z => z = 0%Z) (louvainClearScanW vcs vcout).2.
Proof.
  assert (H : Forall (fun z => z = 0%Z) [0%Z; 0%Z; 0%Z]) by (repeat constructor).
  split; [exact H|].
  exact (louvainClearScanW_after_scans [0%Z; 0%Z; 0%Z]
           [(false, 0, 1, 0%Z, [2; 2; 1]); (false, 0, 2, 3%Z, [2; 2; 1]);
            (true, 0, 0, 1%Z, [2; 2; 1])] H).
Defined.

Lemma ctot_invariant_witness :
  (forall qv u, Some [0; 0; 0; 3; 3; 3; 6; 6; 6] = Some qv ->
     In u (vertexKeys threeTriangles) -> qv !!! u < gspan threeTriangles) /\
  (forall u c, In (u, c) [(1, 3); (4, 0); (8, 8)] ->
     In u (vertexKeys threeTriangles) /\ c < gspan threeTriangles) /\
  let '(vcom0, ctot0) :=
    louvainInitializeFromW (repeat 0 9) (repeat 0%Z 9) threeTriangles (repeat 2%Z 9)
      [0; 0; 0; 3; 3; 3; 6; 6; 6] in
  let '(vcom, ctot) :=
    foldl (fun '(vcom, ctot) '(u, c) =>
             louvainChangeCommunityW vcom ctot threeTriangles u c (repeat 2%Z 9))
          (vcom0, ctot0) [(1, 3); (4, 0); (8, 8)] in
  ctotInv threeTriangles vcom (repeat 2%Z 9) ctot /\
  sumZ ctot = sumZ (map (fun u => repeat 2%Z 9 !!! u) (vertexKeys threeTriangles)).
Proof.
  assert (Hq : forall qv u, Some [0; 0; 0; 3; 3; 3; 6; 6; 6] = Some qv ->
     In u (vertexKeys threeTriangles) -> qv !!! u < gspan threeTriangles).
  { intros qv u E Hu. injection E as <-. in_cases Hu; apply Nat.ltb_lt; reflexivity. }
  assert (Hm : forall u c, In (u, c) [(1, 3); (4, 0); (8, 8)] ->
     In u (vertexKeys threeTriangles) /\ c < gspan threeTriangles).
  { intros u c Hu. cbn in Hu.
    repeat destruct Hu as [Hu|Hu]; try contradiction; injection Hu as <- <-;
      (split; [vm_compute; tauto|apply Nat.ltb_lt; reflexivity]). }
  split; [exact Hq|split; [exact Hm|]].
  exact (ctot_invariant threeTriangles (repeat 2%Z 9) (Some [0; 0; 0; 3; 3; 3; 6; 6; 6])
           [(1, 3); (4, 0); (8, 8)] Hq Hm).
Defined.

Lemma louvainRenumberCommunitiesW_contiguous_witness :
  labelsBelow holed [2; 7; 2; 0] (length (repeat 0 4)) /\
  gspan holed <= length [2; 7; 2; 0] /\
  let '(cext, C) := louvainCommunityExistsW (repeat 0 4) holed [2; 7; 2; 0] in
  let '(vcom', _, C') := louvainRenumberCommunitiesW [2; 7; 2; 0] cext holed in
  C' = C /\
  C = length (List.filter (isNonempty holed [2; 7; 2; 0]) (seq 0 (length (repeat 0 4)))) /\
  (forall u, In u (vertexKeys holed) -> vcom' !!! u < C) /\
  (forall k, k < C -> exists u, In u (vertexKeys holed) /\ vcom' !!! u = k) /\
  (forall u v, In u (vertexKeys holed) -> In v (vertexKeys holed) ->
     vcom' !!! u = vcom' !!! v <-> [2; 7; 2; 0] !!! u = [2; 7; 2; 0] !!! v).
Proof.
  assert (Hl : labelsBelow holed [2; 7; 2; 0] (length (repeat 0 4))).
  { intros u Hu. in_cases Hu; apply Nat.ltb_lt; reflexivity. }
  assert (Hs : gspan holed <= length [2; 7; 2; 0]) by (cbn; lia).
  split; [exact Hl|split; [exact Hs|]].
  exact (louvainRenumberCommunitiesW_contiguous (repeat 0 4) holed [2; 7; 2; 0] Hl Hs).
Defined.

Lemma louvainCommunityVerticesW_partition_witness :
  1 <= length (repeat 0 3) /\ labelsBelow holed [1; 0; 0; 1] (length (repeat 0 3) - 1) /\
  length (repeat 0 3) - 1 <= length (repeat 0 2) /\ order holed <= length (repeat 0 3) /\
  let '(coff', cdeg', cedg') :=
    louvainCommunityVerticesW (repeat 0 3) (repeat 0 2) (repeat 0 3) holed [1; 0; 0; 1] in
  coff' !!! 2 = order holed /\
  (forall c, c < 2 ->
     csrSlice coff' cedg' c = List.filter (fun u => Nat.eqb ([1; 0; 0; 1] !!! u) c) (vertexKeys holed)) /\
  (forall c, c < 2 -> NoDup (csrSlice coff' cedg' c)) /\
  (forall c u, c < 2 ->
     In u (csrSlice coff' cedg' c) <-> In u (vertexKeys holed) /\ [1; 0; 0; 1] !!! u = c).
Proof.
  assert (H1 : 1 <= length (repeat 0 3)) by (cbn; lia).
  assert (Hl : labelsBelow holed [1; 0; 0; 1] (length (repeat 0 3) - 1)).
  { intros u Hu. in_cases Hu; apply Nat.ltb_lt; reflexivity. }
  assert (Hd : length (repeat 0 3) - 1 <= length (repeat 0 2)) by (cbn; lia).
  assert (He : order holed <= length (repeat 0 3)) by (vm_compute; lia).
  split; [exact H1|split; [exact Hl|split; [exact Hd|split; [exact He|]]]].
  exact (louvainCommunityVerticesW_partition (repeat 0 3) (repeat 0 2) (repeat 0 3) holed
           [1; 0; 0; 1] H1 Hl Hd He).
Defined.

(** Two communities [{0, 1}] and [{2, 3}] of a weighted graph with self-loops. *)
Definition loopy : Graph :=
  undirected 4 [(0, 1, 2%Z); (1, 2, 1%Z); (2, 3, 3%Z); (3, 3, 5%Z); (0, 0, 1%Z)].

Definition loopyCom : list nat := [0; 0; 1; 1].

Definition loopyCsr : list nat * list nat * list nat :=
  louvainCommunityVerticesW (repeat 0 3) (repeat 0 2) (repeat 0 4) loopy loopyCom.

Lemma louvainAggregateW_positive_weights_witness :
  symmetric loopy /\
  (forall u v w, In u (vertexKeys loopy) -> In (v, w) (edgesOf loopy u) ->
     In v (vertexKeys loopy) /\ (0 < w)%Z) /\
  labelsBelow loopy loopyCom (length loopyCsr.1.1 - 1) /\
  length loopyCsr.1.1 - 1 <= length (repeat 0%Z 4) /\
  scratchInv [] (repeat 0%Z 4) /\
  (forall c, c < length loopyCsr.1.1 - 1 ->
     csrSlice loopyCsr.1.1 loopyCsr.2 c = bucket loopyCom (vertexKeys loopy) c) /\
  let C := length loopyCsr.1.1 - 1 in
  let '(y, _, _) :=
    louvainAggregateW [] (repeat 0%Z 4) loopy loopyCom loopyCsr.1.1 loopyCsr.2 in
  vertexKeys y = seq 0 C /\
  (forall c, c < C -> NoDup (map fst (edgesOf y c))) /\
  (forall c d w, c < C -> In (d, w) (edgesOf y c) -> w = interWeight loopy loopyCom c d) /\
  (forall c d, c < C -> ~ In d (map fst (edgesOf y c)) ->
     interWeight loopy loopyCom c d = 0%Z) /\
  (forall c, c < C ->
     interWeight loopy loopyCom c c =
       (2 * internalWeight loopy loopyCom c + loopWeight loopy loopyCom c)%Z) /\
  edgeWeight y = edgeWeight loopy.
Proof.
  assert (Hsym : symmetric loopy).
  { unfold symmetric. apply (bool_decide_unpack _). vm_compute. reflexivity. }
  assert (Hpos : forall u v w, In u (vertexKeys loopy) -> In (v, w) (edgesOf loopy u) ->
                   In v (vertexKeys loopy) /\ (0 < w)%Z).
  { intros u v w Hu. in_cases Hu; intros H; vm_compute in H;
      repeat destruct H as [H|H]; try contradiction; injection H as <- <-;
      (split; [vm_compute; tauto|lia]). }
  assert (Hlab : labelsBelow loopy loopyCom (length loopyCsr.1.1 - 1)).
  { intros u Hu. in_cases Hu; apply Nat.ltb_lt; vm_compute; reflexivity. }
  assert (HL : length loopyCsr.1.1 - 1 <= length (repeat 0%Z 4)) by (vm_compute; lia).
  assert (Hscr : scratchInv [] (repeat 0%Z 4)) by (apply scratchInv_zero; repeat constructor).
  assert (Hsl : forall c, c < length loopyCsr.1.1 - 1 ->
                  csrSlice loopyCsr.1.1 loopyCsr.2 c = bucket loopyCom (vertexKeys loopy) c).
  { intros c Hc. vm_compute in Hc. destruct c as [|[|c]]; [vm_compute; reflexivity|vm_compute; reflexivity|lia]. }
  split; [exact Hsym|split; [exact Hpos|split; [exact Hlab|split; [exact HL|split; [exact Hscr|split; [exact Hsl|]]]]]].
  exact (louvainAggregateW_positive_weights [] (repeat 0%Z 4) loopy loopyCom
           loopyCsr.1.1 loopyCsr.2 Hsym Hpos Hlab HL Hscr Hsl).
Defined.

(** *** Instances of the further properties *)

Definition holedW : list Z := [1%Z; 2%Z; 3%Z; 4%Z].

Definition holedCom : list nat := [2; 1; 2; 0].

Lemma louvainVertexWeightsW_adds_witness :
  gspan holed <= length holedW /\
  let vtot' := louvainVertexWeightsW holedW holed in
  length vtot' = length holedW /\
  (forall u, In u (vertexKeys holed) ->
     vtot' !!! u = (holedW !!! u + sumZ (map snd (edgesOf holed u)))%Z) /\
  (forall i, ~ In i (vertexKeys holed) -> vtot' !!! i = holedW !!! i).
Proof.
  assert (H : gspan holed <= length holedW) by (vm_compute; lia).
  split; [exact H|exact (louvainVertexWeightsW_adds holedW holed H)].
Defined.

Lemma louvainCommunityWeightsW_adds_witness :
  labelsBelow holed holedCom (length (repeat 0%Z 4)) /\
  let ctot' := louvainCommunityWeightsW (repeat 0%Z 4) holed holedCom holedW in
  length ctot' = length (repeat 0%Z 4) /\
  (forall c, c < length (repeat 0%Z 4) ->
     ctot' !!! c = (repeat 0%Z 4 !!! c + commWeight (vertexKeys holed) holedCom holedW c)%Z) /\
  sumZ ctot' = (sumZ (repeat 0%Z 4) + sumZ (map (fun u => holedW !!! u) (vertexKeys holed)))%Z.
Proof.
  assert (H : labelsBelow holed holedCom (length (repeat 0%Z 4))).
  { intros u Hu. in_cases Hu; apply Nat.ltb_lt; vm_compute; reflexivity. }
  split; [exact H|exact (louvainCommunityWeightsW_adds (repeat 0%Z 4) holed holedCom holedW H)].
Defined.

Lemma louvainChangeCommunityW_twice_witness :
  1 < length [0; 1; 2] /\ [0; 1; 2] !!! 1 < length [5%Z; 3%Z; 4%Z] /\
  2 < length [5%Z; 3%Z; 4%Z] /\ 0 < length [5%Z; 3%Z; 4%Z] /\
  let '(vcom1, ctot1) :=
    louvainChangeCommunityW [0; 1; 2] [5%Z; 3%Z; 4%Z] threeTriangles 1 2 (repeat 2%Z 9) in
  louvainChangeCommunityW vcom1 ctot1 threeTriangles 1 0 (repeat 2%Z 9) =
  louvainChangeCommunityW [0; 1; 2] [5%Z; 3%Z; 4%Z] threeTriangles 1 0 (repeat 2%Z 9).
Proof.
  split; [cbn; lia|split; [cbn; lia|split; [cbn; lia|split; [cbn; lia|]]]].
  apply (louvainChangeCommunityW_twice [0; 1; 2] [5%Z; 3%Z; 4%Z] (repeat 2%Z 9)
           threeTriangles 1 2 0); cbn; lia.
Defined.

Lemma louvainLookupCommunitiesU_compose_witness :
  (forall i, In i [2; 0; 1] -> i < length [1; 1; 0]) /\
  louvainLookupCommunitiesU (louvainLookupCommunitiesU [2; 0; 1] [1; 1; 0]) [4; 5] =
  louvainLookupCommunitiesU [2; 0; 1] (louvainLookupCommunitiesU [1; 1; 0] [4; 5]).
Proof.
  assert (H : forall i, In i [2; 0; 1] -> i < length [1; 1; 0]).
  { intros i Hi. in_cases Hi; cbn; lia. }
  split; [exact H|exact (louvainLookupCommunitiesU_compose [2; 0; 1] [1; 1; 0] [4; 5] H)].
Defined.

Definition triangleCom : list nat := [0; 0; 0; 3; 3; 3; 6; 6; 6].

Lemma louvainScanCommunitiesW_no_self_witness :
  scratchInv [] (repeat 0%Z 9) /\
  (forall v w, In (v, w) (edgesOf threeTriangles 0) -> 0 <> v ->
     triangleCom !!! v < length (repeat 0%Z 9) /\ (0 < w)%Z) /\
  let '(vcs1, vcout1) := louvainClearScanW [] (repeat 0%Z 9) in
  let '(vcs2, vcout2) := louvainScanCommunitiesW false vcs1 vcout1 threeTriangles 0 triangleCom in
  length vcout2 = length (repeat 0%Z 9) /\ NoDup vcs2 /\
  (forall d, d < length (repeat 0%Z 9) ->
     vcout2 !!! d = wIf (fun v => negb (Nat.eqb 0 v) && Nat.eqb (triangleCom !!! v) d)
                        (edgesOf threeTriangles 0)) /\
  (forall d, d < length (repeat 0%Z 9) -> In d vcs2 <-> (0 < vcout2 !!! d)%Z).
Proof.
  assert (Hscr : scratchInv [] (repeat 0%Z 9)) by (apply scratchInv_zero; repeat constructor).
  assert (Hes : forall v w, In (v, w) (edgesOf threeTriangles 0) -> 0 <> v ->
                  triangleCom !!! v < length (repeat 0%Z 9) /\ (0 < w)%Z).
  { intros v w H _. vm_compute in H.
    repeat destruct H as [H|H]; try contradiction; injection H as <- <-;
      (split; [apply Nat.ltb_lt; vm_compute; reflexivity|lia]). }
  split; [exact Hscr|split; [exact Hes|]].
  exact (louvainScanCommunitiesW_no_self [] (repeat 0%Z 9) threeTriangles 0 triangleCom Hscr Hes).
Defined.

Lemma threeTriangles_closed :
  forall u v w, In u (vertexKeys threeTriangles) -> In (v, w) (edgesOf threeTriangles u) ->
    In v (vertexKeys threeTriangles).
Proof.
  intros u v w Hu. in_cases Hu; intros H; vm_compute in H;
    repeat destruct H as [H|H]; try contradiction; injection H as <- <-; vm_compute; tauto.
Qed.

Lemma louvainMoveW_keeps_tables_witness :
  (forall u v w, In u (vertexKeys threeTriangles) -> In (v, w) (edgesOf threeTriangles u) ->
     In v (vertexKeys threeTriangles)) /\
  length (seq 0 9) = gspan threeTriangles /\ length (repeat 2%Z 9) = gspan threeTriangles /\
  labelsBelow threeTriangles (seq 0 9) (gspan threeTriangles) /\
  ctotInv threeTriangles (seq 0 9) (repeat 2%Z 9) (repeat 2%Z 9) /\
  let '(l, st) := louvainMoveW (seq 0 9) (repeat 2%Z 9) (repeat true 9) [] (repeat 0%Z 9)
                    threeTriangles (repeat 2%Z 9) 9%Q 1%Q 20 (convergedFc (1#100)) in
  l <= 20 /\ length (ms_vcom st) = gspan threeTriangles /\
  length (ms_ctot st) = gspan threeTriangles /\
  labelsBelow threeTriangles (ms_vcom st) (gspan threeTriangles) /\
  ctotInv threeTriangles (ms_vcom st) (repeat 2%Z 9) (ms_ctot st).
Proof.
  assert (H1 : length (seq 0 9) = gspan threeTriangles) by reflexivity.
  assert (H2 : length (repeat 2%Z 9) = gspan threeTriangles) by reflexivity.
  assert (H3 : labelsBelow threeTriangles (seq 0 9) (gspan threeTriangles)).
  { intros u Hu. in_cases Hu; apply Nat.ltb_lt; vm_compute; reflexivity. }
  assert (H4 : ctotInv threeTriangles (seq 0 9) (repeat 2%Z 9) (repeat 2%Z 9)).
  { intros c Hc. vm_compute in Hc.
    do 9 (destruct c as [|c]; [vm_compute; reflexivity|]). lia. }
  split; [exact threeTriangles_closed|split; [exact H1|split; [exact H2|split; [exact H3|split; [exact H4|]]]]].
  exact (louvainMoveW_keeps_tables (seq 0 9) (repeat 2%Z 9) (repeat true 9) [] (repeat 0%Z 9)
           threeTriangles (repeat 2%Z 9) 9%Q 1%Q 20 (convergedFc (1#100))
           threeTriangles_closed H1 H2 H3 H4).
Defined.

Lemma louvainMoveW_none_affected_witness :
  (forall u, In u (vertexKeys threeTriangles) -> repeat false 9 !!! u = false) /\
  (0 <= 1#100)%Q /\
  louvainMoveW (seq 0 9) (repeat 2%Z 9) (repeat false 9) [] (repeat 0%Z 9)
    threeTriangles (repeat 2%Z 9) 9%Q 1%Q 20 (convergedFc (1#100)) =
  (0, mkMoveState (seq 0 9) (repeat 2%Z 9) (repeat false 9) [] (repeat 0%Z 9) 0%Q).
Proof.
  assert (H1 : forall u, In u (vertexKeys threeTriangles) -> repeat false 9 !!! u = false).
  { intros u Hu. in_cases Hu; reflexivity. }
  assert (H2 : (0 <= 1#100)%Q) by (apply Qle_bool_iff; reflexivity).
  split; [exact H1|split; [exact H2|]].
  exact (louvainMoveW_none_affected (seq 0 9) (repeat 2%Z 9) (repeat false 9) [] (repeat 0%Z 9)
           threeTriangles (repeat 2%Z 9) 9%Q 1%Q 20 (1#100) H1 H2).
Defined.

Lemma loopyCom_below4 : labelsBelow loopy loopyCom (length (repeat 0 4)).
Proof. intros u Hu. in_cases Hu; apply Nat.ltb_lt; vm_compute; reflexivity. Qed.

Lemma louvainCommunityTotalDegreeW_sums_witness :
  labelsBelow loopy loopyCom (length (repeat 0 4)) /\
  let a' := louvainCommunityTotalDegreeW (repeat 0 4) loopy loopyCom in
  length a' = length (repeat 0 4) /\
  (forall c, c < length (repeat 0 4) ->
     a' !!! c = sum_list (map (degree loopy) (bucket loopyCom (vertexKeys loopy) c))) /\
  sum_list a' = length (entries loopy).
Proof.
  split; [exact loopyCom_below4|].
  exact (louvainCommunityTotalDegreeW_sums (repeat 0 4) loopy loopyCom loopyCom_below4).
Defined.

Lemma louvainCountCommunityVerticesW_counts_witness :
  labelsBelow loopy loopyCom (length (repeat 0 4)) /\
  let a' := louvainCountCommunityVerticesW (repeat 0 4) loopy loopyCom in
  length a' = length (repeat 0 4) /\
  (forall c, c < length (repeat 0 4) -> a' !!! c = length (bucket loopyCom (vertexKeys loopy) c)) /\
  sum_list a' = order loopy.
Proof.
  split; [exact loopyCom_below4|].
  exact (louvainCountCommunityVerticesW_counts (repeat 0 4) loopy loopyCom loopyCom_below4).
Defined.

Lemma louvainCommunityExistsW_flags_witness :
  labelsBelow loopy loopyCom (length (repeat 0 4)) /\
  let '(a, C) := louvainCommunityExistsW (repeat 0 4) loopy loopyCom in
  length a = length (repeat 0 4) /\
  (forall c, c < length (repeat 0 4) ->
     (exists u, In u (vertexKeys loopy) /\ loopyCom !!! u = c) -> a !!! c = 1) /\
  (forall c, c < length (repeat 0 4) ->
     ~ (exists u, In u (vertexKeys loopy) /\ loopyCom !!! u = c) -> a !!! c = 0) /\
  C = length (List.filter (isNonempty loopy loopyCom) (seq 0 (length (repeat 0 4)))) /\
  C <= order loopy.
Proof.
  split; [exact loopyCom_below4|].
  exact (louvainCommunityExistsW_flags (repeat 0 4) loopy loopyCom loopyCom_below4).
Defined.

Lemma louvainAggregateW_shape_witness :
  (forall u v w, In u (vertexKeys loopy) -> In (v, w) (edgesOf loopy u) ->
     In v (vertexKeys loopy)) /\
  labelsBelow loopy loopyCom (length loopyCsr.1.1 - 1) /\
  (forall c, c < length loopyCsr.1.1 - 1 ->
     csrSlice loopyCsr.1.1 loopyCsr.2 c = bucket loopyCom (vertexKeys loopy) c) /\
  let C := length loopyCsr.1.1 - 1 in
  let '(y, _, _) :=
    louvainAggregateW [] (repeat 0%Z 4) loopy loopyCom loopyCsr.1.1 loopyCsr.2 in
  vertexKeys y = seq 0 C /\ length (gadj y) = C /\
  (forall c d w, c < C -> In (d, w) (edgesOf y c) -> d < C) /\
  (forall c, c < C -> degree y c <= louvainCommunityTotalDegreeW (repeat 0 C) loopy loopyCom !!! c).
Proof.
  assert (Hwf : forall u v w, In u (vertexKeys loopy) -> In (v, w) (edgesOf loopy u) ->
                  In v (vertexKeys loopy)).
  { intros u v w Hu. in_cases Hu; intros H; vm_compute in H;
      repeat destruct H as [H|H]; try contradiction; injection H as <- <-; vm_compute; tauto. }
  assert (Hlab : labelsBelow loopy loopyCom (length loopyCsr.1.1 - 1)).
  { intros u Hu. in_cases Hu; apply Nat.ltb_lt; vm_compute; reflexivity. }
  assert (Hsl : forall c, c < length loopyCsr.1.1 - 1 ->
                  csrSlice loopyCsr.1.1 loopyCsr.2 c = bucket loopyCom (vertexKeys loopy) c).
  { intros c Hc. vm_compute in Hc.
    destruct c as [|[|c]]; [vm_compute; reflexivity|vm_compute; reflexivity|lia]. }
  split; [exact Hwf|split; [exact Hlab|split; [exact Hsl|]]].
  exact (louvainAggregateW_shape [] (repeat 0%Z 4) loopy loopyCom loopyCsr.1.1 loopyCsr.2
           Hwf Hlab Hsl).
Defined.

End Instances.
